(** * beal.cc: residue tables, the (a, x, b, y) iterator and the sieve search

    A shallow embedding of [src/beal.cc].  Machine integers are values of
    [Z]; every place where the C++ run would stop or leave defined behaviour
    (a failed [assert], an index outside a [std::vector], a signed overflow,
    a remainder by zero) is a fault, modelled by [None] in the [option]
    monad.  The two unbounded loops of the source take a number of turns as
    fuel, computed from the bounds; the proofs show that it is never used
    up where the bounds are below [INT_MAX].  The three classes of the
    source are the modules [cz], [axby] and [work]; the [extern "C"]
    functions keep their flat names. *)

From stdpp Require Import base option list sorting gmap.
From Stdlib Require Import ZArith Lia.

Local Open Scope Z_scope.

(** ** Machine integers *)

Definition INT_MAX : Z := 2 ^ 31 - 1.
Definition UINT_MAX : Z := 2 ^ 32 - 1.

(** Conversion to [unsigned int] / [uint32_t] and to [uint64_t]. *)
Definition to_uint32 (v : Z) : Z := v mod 2 ^ 32.
Definition to_uint64 (v : Z) : Z := v mod 2 ^ 64.

(** Conversion of an [unsigned int] to [int] (two's complement). *)
Definition to_int (v : Z) : Z :=
  let u := v mod 2 ^ 32 in if decide (u <= INT_MAX) then u else u - 2 ^ 32.

(** [++v] and [v++] on an [int]: signed overflow is a fault. *)
Definition incr (v : Z) : option Z :=
  if decide (v < INT_MAX) then Some (v + 1) else None.

(** [assert(c)]. *)
Definition assert (P : Prop) `{Decision P} : option unit :=
  if decide P then Some tt else None.

(** [v[i]] and [v[i] = x] on a [std::vector]: an index outside the vector is
    a fault. *)
Definition vec_get {A : Type} (v : list A) (i : Z) : option A :=
  if decide (0 <= i) then v !! Z.to_nat i else None.

Definition vec_set {A : Type} (v : list A) (i : Z) (x : A) : option (list A) :=
  if decide (0 <= i < Z.of_nat (length v)) then Some (<[Z.to_nat i := x]> v)
  else None.

(** A counted [for] loop whose body may fault: the state is threaded through
    the index values in order, and the first fault ends the run. *)
Fixpoint for_each {S I : Type} (body : S -> I -> option S) (st : S)
    (idx : list I) : option S :=
  match idx with
  | [] => Some st
  | i :: rest => st' ← body st i; for_each body st' rest
  end.

(** ** Numeric primitives of [math.h] *)

(** Modelled from the spec: [modpow] is declared in [math.h], which is not
    part of the sources at hand; the spec gives its contract as
    "computes base^exponent mod modulus ... exact for modulus up to 2^32-1". *)
Definition modpow (base exponent modulus : Z) : Z :=
  (base ^ exponent) mod modulus.

(** Modelled from the spec: [gcd] is declared in [math.h], which is not part
    of the sources at hand; the spec gives its contract as "computes the
    greatest common divisor, gcd(0, v) = v". *)
Definition gcd (u v : Z) : Z := Z.gcd u v.

(** ** class cz: the residue table of one modulus *)

Module cz.

(** [exists_] is a [std::vector<bool>] of [2^32] bits, all clear at first;
    it is kept as the set of the indices whose bit is set. *)
Record t := mk {
  vals_ : list (list Z);
  exists_ : gset Z;
  mod_ : Z
}.

(** [v.resize(n)] on a vector of [uint32_t]: truncates, or pads with 0. *)
Definition resize_row (n : Z) (row : list Z) : list Z :=
  take (Z.to_nat n) row ++ replicate (Z.to_nat n - length row) 0.

(** The body of the inner loop, at base [c] and exponent [z]:
    [val = modpow(c, z, mod); vals_[c][z] = val; exists_[val] = true]. *)
Definition fill_cell (modulus c : Z) (st : list (list Z) * gset Z) (z : Z)
  : option (list (list Z) * gset Z) :=
  let '(vals, bits) := st in
  let val := to_uint32 (modpow c z modulus) in
  row ← vec_get vals c;
  row' ← vec_set row z val;
  vals' ← vec_set vals c row';
  Some (vals', {[val]} ∪ bits).

(** The body of the outer loop, at base [c]:
    [vals_[c].resize(maxp+1)], then the inner loop over [z = 3 .. maxp]. *)
Definition fill_row (maxp modulus : Z) (st : list (list Z) * gset Z) (c : Z)
  : option (list (list Z) * gset Z) :=
  let '(vals, bits) := st in
  row ← vec_get vals c;
  vals' ← vec_set vals c (resize_row (to_uint32 (maxp + 1)) row);
  for_each (fill_cell modulus c) (vals', bits) (seqZ 3 (maxp - 2)).

(** The constructor [cz(maxb, maxp, mod)]; the arguments are values of the
    unsigned parameter types.  The two loops count [c = 1 .. maxb] and
    [z = 3 .. maxp]; should [maxb + 1] or [maxp + 1] wrap around to 0, the
    first write of the loop is already outside its vector, so the run
    faults before the unsigned counter could wrap. *)
Definition make (maxb maxp modulus : Z) : option t :=
  _ ← assert (maxb > 0);
  _ ← assert (maxp > 2);
  _ ← assert (modulus > 0);
  let vals := replicate (Z.to_nat (to_uint32 (maxb + 1))) [] in
  '(vals', bits) ← for_each (fill_row maxp modulus) (vals, ∅) (seqZ 1 maxb);
  Some (mk vals' bits modulus).

(** [get(c, z)]. *)
Definition get (self : t) (c z : Z) : option Z :=
  _ ← assert (c > 0);
  _ ← assert (z > 2);
  row ← vec_get (vals_ self) c;
  vec_get row z.

(** [exists(val)], for a [uint32_t] value: every index of the [2^32]-bit
    vector is in range. *)
Definition exists' (self : t) (val : Z) : bool :=
  bool_decide (val ∈ exists_ self).

(** [mod()]. *)
Definition modulus (self : t) : Z := mod_ self.
End cz.

(** ** class axby: the iterator over the (a, x, b, y) space of one [a] *)

Module point.
Record t := mk { a : Z; x : Z; b : Z; y : Z }.

Definition set_a (p : t) (v : Z) : t := mk v (x p) (b p) (y p).
Definition set_x (p : t) (v : Z) : t := mk (a p) v (b p) (y p).
Definition set_b (p : t) (v : Z) : t := mk (a p) (x p) v (y p).
Definition set_y (p : t) (v : Z) : t := mk (a p) (x p) (b p) v.
End point.

Module axby.
Record t := mk {
  maxb_ : Z;
  maxp_ : Z;
  p_ : point.t;
  a_dim_ : Z
}.

Definition set_p (self : t) (p : point.t) : t :=
  mk (maxb_ self) (maxp_ self) p (a_dim_ self).

(** The constructor [axby(maxb, maxp, a)]. *)
Definition make (maxb maxp a : Z) : option t :=
  let p := point.mk a 3 1 3 in
  _ ← assert (maxb > 0);
  _ ← assert (maxp > 2);
  _ ← assert (point.a p > 0);
  _ ← assert (point.x p = 3);
  _ ← assert (point.b p = 1);
  _ ← assert (point.y p = 3);
  Some (mk maxb maxp (point.set_y p (point.y p - 1)) a).

(** The [for (;;)] loop of [next], entered after [p_.b++].  The result is
    the point and the [done] flag: [true] where the source returns from
    inside the loop, [false] where it breaks out.  Every turn that does not
    leave the loop increments [b], and the loop is left once [b > a], so
    [S (a + 1 - b)] turns are enough for the [b] the loop starts from. *)
Fixpoint skip_b (fuel : nat) (p : point.t) : option (point.t * bool) :=
  match fuel with
  | O => None
  | S fuel' =>
      if decide (point.b p > point.a p) then
        a' ← incr (point.a p);
        Some (point.set_a p a', true)
      else if decide (gcd (point.a p) (point.b p) > 1) then
        b' ← incr (point.b p);
        skip_b fuel' (point.set_b p b')
      else Some (p, false)
  end.

Definition skip_b_fuel (p : point.t) : nat :=
  S (Z.to_nat (point.a p + 1 - point.b p)).

(** [next(&done)]: the new state of the iterator and the [done] flag; the
    reference the source returns is [p_] of the new state. *)
Definition next (self : t) : option (t * bool) :=
  let p := p_ self in
  _ ← assert (point.a p = a_dim_ self);
  y' ← incr (point.y p);
  let p := point.set_y p y' in
  if decide (y' > maxp_ self) then
    let p := point.set_y p 3 in
    x' ← incr (point.x p);
    let p := point.set_x p x' in
    if decide (x' > maxp_ self) then
      let p := point.set_x p 3 in
      b' ← incr (point.b p);
      let p := point.set_b p b' in
      '(p, done) ← skip_b (skip_b_fuel p) p;
      Some (set_p self p, done)
    else Some (set_p self p, false)
  else Some (set_p self p, false).

(** The protocol of the class comment: call [next] until [done], and
    discard the point returned with [done]. *)
Fixpoint collect (fuel : nat) (self : t) : option (list point.t) :=
  match fuel with
  | O => None
  | S fuel' =>
      '(self', done) ← next self;
      if (done : bool) then Some []
      else rest ← collect fuel' self'; Some (p_ self' :: rest)
  end.

(** One call of [next] for each point of the slice, and the last one. *)
Definition steps (maxp a : Z) : nat :=
  S (Z.to_nat (a * (maxp - 2) * (maxp - 2))).

(** The complete sequence of points of the slice [a]. *)
Definition points (maxb maxp a : Z) : option (list point.t) :=
  self ← make maxb maxp a;
  collect (steps maxp a) self.
End axby.

(** ** class work: the search over the tables of several moduli *)

Module work.
Record t := mk {
  maxb_ : Z;
  maxp_ : Z;
  czs_ : list cz.t
}.

(** The constructor [work(maxb, maxp, primes, nprimes)]: the [int] bounds
    are converted to the unsigned parameters of [cz]. *)
Definition make (maxb maxp : Z) (primes : list Z) : option t :=
  czs ← for_each
           (fun czs prime =>
              czp ← cz.make (to_uint32 maxb) (to_uint32 maxp) prime;
              Some (czs ++ [czp]))
           [] primes;
  Some (mk maxb maxp czs).

(** The value handed to [exists] for one table:
    [ax = get(pt.a, pt.x); by = get(pt.b, pt.y); val = (ax + by) % mod()],
    all three of type [uint64_t]. *)
Definition sieve_val (czp : cz.t) (pt : point.t) : option Z :=
  ax ← cz.get czp (point.a pt) (point.x pt);
  bx ← cz.get czp (point.b pt) (point.y pt);
  _ ← assert (cz.modulus czp <> 0);
  Some (to_uint64 (to_uint64 ax + to_uint64 bx) mod cz.modulus czp).

(** The loop over [czs_] with its [break]: the value of [found]. *)
Fixpoint found (czs : list cz.t) (pt : point.t) : option bool :=
  match czs with
  | [] => Some true
  | czp :: rest =>
      val ← sieve_val czp pt;
      if cz.exists' czp (to_uint32 val) then found rest pt else Some false
  end.

(** The [while (!done)] loop.  [pt] is a reference to the point inside
    [pts], and [pt = pts.next(&done)] assigns that point to itself, so [pt]
    is [p_] of the iterator throughout. *)
Fixpoint run (fuel : nat) (self : t) (pts : axby.t) (done : bool)
    (results : list point.t) : option (list point.t) :=
  match fuel with
  | O => None
  | S fuel' =>
      if done then Some results
      else
        let pt := axby.p_ pts in
        ok ← found (czs_ self) pt;
        let results := if (ok : bool) then results ++ [pt] else results in
        '(pts, done) ← axby.next pts;
        run fuel' self pts done results
  end.

(** [do_work(a, results)]: a method that is not [const], on a vector taken
    by reference; both come back in the result. *)
Definition do_work (self : t) (a : Z) (results : list point.t)
  : option (t * list point.t) :=
  pts ← axby.make (maxb_ self) (maxp_ self) a;
  '(pts, done) ← axby.next pts;
  results ← run (axby.steps (maxp_ self) a) self pts done results;
  Some (self, results).
End work.

(** ** The [extern "C"] interface *)

Definition work_make (maxb maxp : Z) (primes : list Z) : option work.t :=
  work.make (to_int maxb) (to_int maxp) primes.

(** The copy loop of [work_do_work]: [pts[i] = results[i]] for each [i]. *)
Definition copy_out (results pts : list point.t) : option (list point.t) :=
  for_each
    (fun pts i => r ← vec_get results i; vec_set pts i r)
    pts (seqZ 0 (Z.of_nat (length results))).

(** [work_do_work(workp, a, pts, len)]: the object behind [workp], the
    caller's array and the returned count.  [pts] is the whole array of the
    caller, of which [len] claims a prefix. *)
Definition work_do_work (p : work.t) (a : Z) (pts : list point.t) (len : Z)
  : option (work.t * list point.t * Z) :=
  '(p, results) ← work.do_work p a [];
  let size := Z.of_nat (length results) in
  if decide (size <= len) then
    pts ← copy_out results pts;
    Some (p, pts, size)
  else Some (p, pts, size).

(** What an array of the caller holds before any call. *)
Definition blank : point.t := point.mk 0 0 0 0.

Definition c_modpow (base exponent modulus : Z) : Z :=
  to_uint32 (modpow base exponent modulus).

Definition c_gcd (u v : Z) : Z := gcd u v.

Definition cz_make (maxb maxp modulus : Z) : option cz.t :=
  cz.make maxb maxp modulus.

Definition cz_get (czp : cz.t) (c z : Z) : option Z := cz.get czp c z.

Definition cz_exists (czp : cz.t) (val : Z) : bool := cz.exists' czp val.

Definition axby_make (maxb maxp a : Z) : option axby.t :=
  axby.make (to_int maxb) (to_int maxp) a.

(** [axby_next(axbyp, pp)]: the iterator, the point written to [*pp] and the
    returned [done]. *)
Definition axby_next (p : axby.t) : option (axby.t * point.t * bool) :=
  '(p, done) ← axby.next p;
  Some (p, axby.p_ p, done).

(** ** The slice of one [a], as the specification describes it *)

(** The exponents [3 .. maxp]. *)
Definition exps (maxp : Z) : list Z := seqZ 3 (maxp - 2).

(** The bases [b] with [lo <= b <= a] and [gcd(a, b) = 1], in increasing
    order. *)
Definition coprime_bases (a lo : Z) : list Z :=
  filter (fun b => gcd a b = 1) (seqZ lo (a + 1 - lo)).

(** The points of one [b] and one [x], for the [y] of [ys] in order. *)
Definition row (a x b : Z) (ys : list Z) : list point.t :=
  (fun y => point.mk a x b y) <$> ys.

(** The points of one [b], for the [x] of [xs] in order, each with every
    [y]. *)
Definition plane (maxp a b : Z) (xs : list Z) : list point.t :=
  xs ≫= (fun x => row a x b (exps maxp)).

Definition slice_from (maxp a : Z) (bs : list Z) : list point.t :=
  bs ≫= (fun b => plane maxp a b (exps maxp)).

(** The whole slice: [b] outermost, then [x], and [y] innermost. *)
Definition slice (maxp a : Z) : list point.t :=
  slice_from maxp a (coprime_bases a 1).

(** The points that follow the cursor [p] in that order. *)
Definition after (maxp : Z) (p : point.t) : list point.t :=
  let a := point.a p in
  row a (point.x p) (point.b p) (seqZ (point.y p + 1) (maxp - point.y p))
  ++ plane maxp a (point.b p) (seqZ (point.x p + 1) (maxp - point.x p))
  ++ slice_from maxp a (coprime_bases a (point.b p + 1)).

(** The order of the enumeration: [b] first, then [x], then [y]. *)
Definition point_lt (p q : point.t) : Prop :=
  point.b p < point.b q
  \/ (point.b p = point.b q /\ point.x p < point.x q)
  \/ (point.b p = point.b q /\ point.x p = point.x q /\ point.y p < point.y q).

(** ** The checks of the search, as the specification words them *)

(** The check of one table on one point, as the specification words it:
    [exists((get(a, x) + get(b, y)) mod modulus())], with the exact sum. *)
Definition passes (t : cz.t) (pt : point.t) : bool :=
  match cz.get t (point.a pt) (point.x pt),
        cz.get t (point.b pt) (point.y pt) with
  | Some ax, Some bx => cz.exists' t ((ax + bx) mod cz.modulus t)
  | _, _ => false
  end.

(** A point is retained when the check of every table succeeds. *)
Definition retained (czs : list cz.t) (pt : point.t) : bool :=
  forallb (fun t => passes t pt) czs.

(** [t] was built for the bounds [maxb], [maxp] and some [uint32_t]
    modulus. *)
Definition built (maxb maxp : Z) (t : cz.t) : Prop :=
  exists modulus,
    modulus <= UINT_MAX /\ cz.make maxb maxp modulus = Some t.

(** A point whose bases and exponents are within the bounds of the tables. *)
Definition in_bounds (maxb maxp : Z) (pt : point.t) : Prop :=
  1 <= point.a pt <= maxb /\ 1 <= point.b pt <= maxb
  /\ 3 <= point.x pt <= maxp /\ 3 <= point.y pt <= maxp.

(** ** Invariants of the loops *)

(** What holds of the iterator between two calls of [next]. *)
Definition cursor_ok (s : axby.t) : Prop :=
  let p := axby.p_ s in
  axby.a_dim_ s = point.a p
  /\ 0 < point.a p < INT_MAX
  /\ 2 < axby.maxp_ s < INT_MAX
  /\ 3 <= point.x p <= axby.maxp_ s
  /\ 2 <= point.y p <= axby.maxp_ s
  /\ 1 <= point.b p <= point.a p.


(** The value the constructor stores for [(c, z)]. *)
Definition stored (modulus c z : Z) : Z := to_uint32 (modpow c z modulus).

(** [vals[c][z]] holds [v]. *)
Definition cell (vals : list (list Z)) (c z v : Z) : Prop :=
  exists row, vals !! Z.to_nat c = Some row /\ row !! Z.to_nat z = Some v.

(** The inner loop of the constructor at base [c], started from
    [(vals0, bits0)], before the turn of [z]. *)
Definition inner_inv (modulus c : Z) (vals0 : list (list Z)) (bits0 : gset Z)
    (z : Z) (st : list (list Z) * gset Z) : Prop :=
  (forall z', 3 <= z' < z -> cell st.1 c z' (stored modulus c z'))
  /\ (forall k, k <> Z.to_nat c -> st.1 !! k = vals0 !! k)
  /\ (forall v, v ∈ st.2 <->
                v ∈ bits0 \/ exists z', 3 <= z' < z /\ v = stored modulus c z').

(** The outer loop of the constructor before the turn of [c]. *)
Definition outer_inv (maxp modulus c : Z) (st : list (list Z) * gset Z)
  : Prop :=
  (forall c' z', 1 <= c' < c -> 3 <= z' <= maxp ->
                 cell st.1 c' z' (stored modulus c' z'))
  /\ (forall v, v ∈ st.2 <->
                exists c' z', 1 <= c' < c /\ 3 <= z' <= maxp
                              /\ v = stored modulus c' z').

(** The shape of [vals_] while base [c] is being filled. *)
Definition row_shape (maxb maxp c : Z) (st : list (list Z) * gset Z) : Prop :=
  Z.of_nat (length st.1) = maxb + 1
  /\ exists row, st.1 !! Z.to_nat c = Some row
                 /\ Z.of_nat (length row) = maxp + 1.

(** The row lengths of [vals_] during the inner loop of the constructor at
    base [c], before the turn of [z]: no write changes a length, and the
    write of the turn before was inside row [c]. *)
Definition inner_shape (c : Z) (lens0 : list nat) (z : Z)
    (st : list (list Z) * gset Z) : Prop :=
  length <$> st.1 = lens0
  /\ (3 < z ->
      exists n, lens0 !! Z.to_nat c = Some n /\ z - 1 < Z.of_nat n).

(** The shape of [vals_] before the turn of [c] of the outer loop: the
    vector has the length of its [resize], and every row filled so far has
    the length of its own [resize], which holds index [maxp]. *)
Definition outer_shape (maxb maxp c : Z) (st : list (list Z) * gset Z)
  : Prop :=
  length st.1 = Z.to_nat (to_uint32 (maxb + 1))
  /\ (forall c', 1 <= c' < c ->
        exists row, st.1 !! Z.to_nat c' = Some row
                    /\ Z.of_nat (length row) = to_uint32 (maxp + 1)
                    /\ maxp < Z.of_nat (length row)).

(** The residues of the sum of a point that the table of [modulus] accepts:
    those of some power [c^z] within the bounds. *)
Definition power_residue (maxb maxp modulus : Z) (pt : point.t) : Prop :=
  exists c z,
    1 <= c <= maxb /\ 3 <= z <= maxp
    /\ (point.a pt ^ point.x pt + point.b pt ^ point.y pt) mod modulus
       = c ^ z mod modulus.

(** The iterator after [n] calls of [next], with the flag of the last call;
    no result when a call faults, or when a call follows one that reported
    [done]. *)
Fixpoint calls (n : nat) (s : axby.t) : option (axby.t * bool) :=
  match n with
  | O => Some (s, false)
  | S n' =>
      '(s', dn) ← calls n' s;
      if (dn : bool) then None else axby.next s'
  end.

(** * Proofs *)

(** ** Facts on the slice *)

Lemma coprime_bases_nil a lo : a < lo -> coprime_bases a lo = [].
Proof. intros H. unfold coprime_bases. by rewrite seqZ_nil by lia. Qed.

Lemma coprime_bases_cons a lo :
  lo <= a ->
  coprime_bases a lo =
    if decide (gcd a lo = 1) then lo :: coprime_bases a (lo + 1)
    else coprime_bases a (lo + 1).
Proof.
  intros H. unfold coprime_bases. rewrite seqZ_cons by lia.
  rewrite filter_cons.
  replace (Z.pred (a + 1 - lo)) with (a + 1 - (lo + 1)) by lia.
  replace (Z.succ lo) with (lo + 1) by lia. done.
Qed.

Lemma elem_of_coprime_bases a lo b :
  b ∈ coprime_bases a lo <-> lo <= b <= a /\ gcd a b = 1.
Proof.
  unfold coprime_bases. rewrite list_elem_of_filter, elem_of_seqZ. lia.
Qed.

Lemma elem_of_exps maxp z : z ∈ exps maxp <-> 3 <= z <= maxp.
Proof. unfold exps. rewrite elem_of_seqZ. lia. Qed.

Lemma gcd_accept a b : 0 < a -> ~ gcd a b > 1 <-> gcd a b = 1.
Proof.
  intros Ha. unfold gcd.
  pose proof (Z.gcd_nonneg a b).
  assert (Z.gcd a b <> 0) by (intros E; apply Z.gcd_eq_0_l in E; lia).
  lia.
Qed.

Lemma elem_of_slice maxp a p :
  p ∈ slice maxp a <->
  point.a p = a /\ 3 <= point.x p <= maxp /\ 3 <= point.y p <= maxp
  /\ 1 <= point.b p <= a /\ gcd a (point.b p) = 1.
Proof.
  unfold slice, slice_from, plane, row. rewrite list_elem_of_bind. split.
  - intros (b & Hp & Hb). apply list_elem_of_bind in Hp as (x & Hp & Hx).
    apply list_elem_of_fmap in Hp as (y & -> & Hy).
    apply elem_of_coprime_bases in Hb. apply elem_of_exps in Hx, Hy.
    simpl. lia.
  - intros (<- & Hx & Hy & Hb & Hg). exists (point.b p). split.
    + apply list_elem_of_bind. exists (point.x p). split.
      * apply list_elem_of_fmap. exists (point.y p).
        split; [by destruct p | by apply elem_of_exps].
      * by apply elem_of_exps.
    + by apply elem_of_coprime_bases.
Qed.

(** ** The iterator follows the slice *)

Lemma incr_Some v : v < INT_MAX -> incr v = Some (v + 1).
Proof. intros H. unfold incr. by rewrite decide_True. Qed.

Lemma assert_Some (P : Prop) `{Decision P} : P -> assert P = Some tt.
Proof. intros H'. unfold assert. by rewrite decide_True. Qed.

(** The loop on [b] stops at the first coprime base at or after the one it
    starts from, or reports [done] when there is none up to [a]. *)
Lemma skip_b_spec fuel p :
  0 < point.a p < INT_MAX ->
  1 <= point.b p <= point.a p + 1 ->
  (Z.to_nat (point.a p + 1 - point.b p) < fuel)%nat ->
  (coprime_bases (point.a p) (point.b p) = []
   /\ axby.skip_b fuel p
      = Some (point.mk (point.a p + 1) (point.x p) (point.a p + 1) (point.y p),
              true))
  \/ (exists b', point.b p <= b' <= point.a p
        /\ coprime_bases (point.a p) (point.b p)
           = b' :: coprime_bases (point.a p) (b' + 1)
        /\ axby.skip_b fuel p = Some (point.set_b p b', false)).
Proof.
  revert p. induction fuel as [|fuel IH]; intros p Ha Hb Hfuel; [lia|].
  simpl. destruct (decide (point.b p > point.a p)) as [Hgt|Hle].
  - left. rewrite incr_Some by lia. split; [apply coprime_bases_nil; lia|].
    simpl. unfold point.set_a. do 3 f_equal. lia.
  - rewrite coprime_bases_cons by lia.
    destruct (decide (gcd (point.a p) (point.b p) > 1)) as [Hg|Hg].
    + rewrite decide_False by lia. rewrite incr_Some by lia. simpl.
      destruct (IH (point.set_b p (point.b p + 1)))
        as [[Hnil Hs]|(b' & Hb' & Hc & Hs)]; simpl in *; try lia.
      * left. split; [done|]. rewrite Hs. done.
      * right. exists b'. split; [lia|]. split; [done|]. rewrite Hs. done.
    + right. exists (point.b p). apply gcd_accept in Hg; [|lia].
      rewrite decide_True by done. split; [lia|]. split; [done|].
      by destruct p.
Qed.

Local Arguments axby.skip_b_fuel : simpl never.

Ltac unfold_setters :=
  unfold point.set_a, point.set_b, point.set_x, point.set_y, axby.set_p;
  cbn.

Lemma seqZ_first m n : 0 < n -> seqZ m n = m :: seqZ (m + 1) (n - 1).
Proof. intros H. by rewrite seqZ_cons by lia. Qed.

Lemma exps_first maxp : 2 < maxp -> exps maxp = 3 :: seqZ (3 + 1) (maxp - 3).
Proof.
  intros H. unfold exps. rewrite seqZ_first by lia. do 2 f_equal. lia.
Qed.

(** One call of [next]: either no point follows the cursor and the call
    reports [done], or the call moves the cursor to the point that follows. *)
Lemma next_spec s :
  cursor_ok s ->
  (after (axby.maxp_ s) (axby.p_ s) = []
   /\ exists s', axby.next s = Some (s', true))
  \/ (exists s', axby.next s = Some (s', false)
        /\ cursor_ok s'
        /\ axby.maxp_ s' = axby.maxp_ s
        /\ axby.maxb_ s' = axby.maxb_ s
        /\ point.a (axby.p_ s') = point.a (axby.p_ s)
        /\ after (axby.maxp_ s) (axby.p_ s)
           = axby.p_ s' :: after (axby.maxp_ s) (axby.p_ s')).
Proof.
  destruct s as [mb mp [a x b y] ad]. unfold cursor_ok. cbn.
  intros (-> & Ha & Hmp & Hx & Hy & Hb).
  unfold axby.next, after. cbn.
  rewrite assert_Some by done. rewrite (incr_Some y) by lia. unfold_setters.
  destruct (decide (y + 1 > mp)) as [Hy'|Hy'].
  - rewrite (seqZ_nil (y + 1)) by lia.
    rewrite (incr_Some x) by lia. unfold_setters.
    destruct (decide (x + 1 > mp)) as [Hx'|Hx'].
    + rewrite (seqZ_nil (x + 1)) by lia.
      rewrite (incr_Some b) by lia. unfold_setters.
      destruct (skip_b_spec (axby.skip_b_fuel (point.mk a 3 (b + 1) 3))
                  (point.mk a 3 (b + 1) 3))
        as [[Hnil Hs]|(b' & Hb' & Hc & Hs)];
        cbn [point.a point.b point.x point.y point.set_b] in *;
        [lia | lia | unfold axby.skip_b_fuel; cbn; lia | |].
      * left. rewrite Hnil. split; [done|]. rewrite Hs. unfold_setters. eauto.
      * right. rewrite Hs. unfold_setters. eexists. split; [done|]. cbn.
        repeat split; try lia.
        rewrite Hc. unfold slice_from, plane. rewrite bind_cons.
        rewrite (exps_first mp) at 1 by lia. rewrite bind_cons.
        rewrite (exps_first mp) at 1 by lia. unfold_setters.
        by rewrite <- app_assoc.
    + right. eexists. split; [done|]. cbn. repeat split; try lia.
      unfold plane. rewrite (seqZ_first (x + 1)) by lia. rewrite bind_cons.
      rewrite (exps_first mp) at 1 by lia. unfold_setters.
      replace (mp - x - 1) with (mp - (x + 1)) by lia.
      by rewrite <- app_assoc.
  - right. eexists. split; [done|]. cbn. repeat split; try lia.
    rewrite (seqZ_first (y + 1)) by lia. unfold_setters.
    by replace (mp - y - 1) with (mp - (y + 1)) by lia.
Qed.

Lemma plane_first maxp a b :
  2 < maxp ->
  plane maxp a b (exps maxp)
  = row a 3 b (exps maxp) ++ plane maxp a b (seqZ (3 + 1) (maxp - 3)).
Proof.
  intros H. unfold plane.
  rewrite <- (bind_cons (fun x => row a x b (exps maxp))).
  f_equal. by apply exps_first.
Qed.

(** Calling [next] until [done] collects the points after the cursor. *)
Lemma collect_spec fuel s :
  cursor_ok s ->
  (length (after (axby.maxp_ s) (axby.p_ s)) < fuel)%nat ->
  axby.collect fuel s = Some (after (axby.maxp_ s) (axby.p_ s)).
Proof.
  revert s. induction fuel as [|fuel IH]; intros s Hok Hfuel; [lia|].
  cbn [axby.collect].
  destruct (next_spec s Hok)
    as [(Hnil & s' & Hn)|(s' & Hn & Hok' & Hmp & _ & _ & Hafter)].
  - rewrite Hn, Hnil. done.
  - rewrite Hn. cbn. rewrite Hafter in Hfuel |- *. cbn in Hfuel.
    rewrite <- Hmp. rewrite IH; [done..|]. rewrite Hmp. lia.
Qed.

Lemma length_row a x b ys : length (row a x b ys) = length ys.
Proof. unfold row. by rewrite length_fmap. Qed.

Lemma length_plane maxp a b xs :
  length (plane maxp a b xs) = (length xs * Z.to_nat (maxp - 2))%nat.
Proof.
  unfold plane. induction xs as [|x xs IH]; [done|].
  rewrite bind_cons, length_app, IH, length_row. unfold exps.
  rewrite length_seqZ. cbn. lia.
Qed.

Lemma length_slice_from maxp a bs :
  length (slice_from maxp a bs)
  = (length bs * (Z.to_nat (maxp - 2) * Z.to_nat (maxp - 2)))%nat.
Proof.
  unfold slice_from. induction bs as [|b bs IH]; [done|].
  rewrite bind_cons, length_app, IH, length_plane. unfold exps.
  rewrite length_seqZ. cbn. lia.
Qed.

Lemma length_slice maxp a :
  0 <= a -> 2 <= maxp ->
  (length (slice maxp a) < axby.steps maxp a)%nat.
Proof.
  intros Ha Hmp. unfold slice, axby.steps. rewrite length_slice_from.
  assert (length (coprime_bases a 1) <= Z.to_nat a)%nat as Hlen.
  { unfold coprime_bases. etrans; [apply length_filter|].
    rewrite length_seqZ. lia. }
  rewrite <- Z.mul_assoc. rewrite Z2Nat.inj_mul by nia.
  rewrite Z2Nat.inj_mul by lia.
  apply Nat.lt_succ_r, Nat.mul_le_mono_r, Hlen.
Qed.

(** The cursor the constructor leaves is followed by the whole slice. *)
Lemma after_start maxp a :
  2 < maxp -> 0 < a -> after maxp (point.mk a 3 1 (3 - 1)) = slice maxp a.
Proof.
  intros Hmp Ha. unfold after, slice. cbn.
  rewrite (coprime_bases_cons a 1) by lia.
  rewrite decide_True by (unfold gcd; apply Z.gcd_1_r).
  unfold slice_from. rewrite bind_cons, plane_first by lia.
  by rewrite <- app_assoc.
Qed.

Lemma axby_make_Some maxb maxp a :
  0 < maxb -> 2 < maxp -> 0 < a ->
  axby.make maxb maxp a
  = Some (axby.mk maxb maxp (point.mk a 3 1 (3 - 1)) a).
Proof.
  intros Hmb Hmp Ha. unfold axby.make. cbn.
  by rewrite !assert_Some by (done || lia).
Qed.

Lemma cursor_ok_start maxb maxp a :
  2 < maxp < INT_MAX -> 0 < a < INT_MAX ->
  cursor_ok (axby.mk maxb maxp (point.mk a 3 1 (3 - 1)) a).
Proof. intros Hmp Ha. unfold cursor_ok. cbn. lia. Qed.

(** The iterator yields the slice of the specification, in its order. *)
Lemma points_slice maxb maxp a :
  0 < maxb -> 2 < maxp < INT_MAX -> 0 < a < INT_MAX ->
  axby.points maxb maxp a = Some (slice maxp a).
Proof.
  intros Hmb Hmp Ha. unfold axby.points.
  rewrite axby_make_Some by lia. cbn [mbind option_bind].
  rewrite collect_spec; cbn [axby.p_ axby.maxp_].
  - by rewrite after_start by lia.
  - by apply cursor_ok_start.
  - rewrite after_start by lia. apply length_slice; lia.
Qed.

(** *** Fuel

    A run that returns with some fuel returns the same with more: where the
    model returns a result, the result does not depend on the bound put on
    the number of turns. *)

Lemma skip_b_fuel_mono fuel fuel' p r :
  axby.skip_b fuel p = Some r -> (fuel <= fuel')%nat ->
  axby.skip_b fuel' p = Some r.
Proof.
  revert fuel' p. induction fuel as [|fuel IH]; intros fuel' p Hrun Hle;
    [done|].
  destruct fuel' as [|fuel']; [lia|]. cbn in Hrun |- *.
  case_decide; [done|]. case_decide; [|done].
  destruct (incr (point.b p)); [|done]. cbn in Hrun |- *.
  apply IH; [done|lia].
Qed.

Lemma collect_fuel_mono fuel fuel' s l :
  axby.collect fuel s = Some l -> (fuel <= fuel')%nat ->
  axby.collect fuel' s = Some l.
Proof.
  revert fuel' s l. induction fuel as [|fuel IH]; intros fuel' s l Hrun Hle;
    [done|].
  destruct fuel' as [|fuel']; [lia|]. cbn [axby.collect] in Hrun |- *.
  destruct (axby.next s) as [[s' dn]|]; [|done]. cbn in Hrun |- *.
  destruct dn; [done|].
  destruct (axby.collect fuel s') as [rest|] eqn:Hrest; [|done].
  by rewrite (IH fuel' s' rest Hrest) by lia.
Qed.

(** *** The iterator never reads [maxb_] *)




(** ** The order of the slice *)

Section sorted.
Context {A B : Type} (RA : relation A) (RB : relation B).

Lemma StronglySorted_filter (P : A -> Prop) `{forall x, Decision (P x)} l :
  StronglySorted RA l -> StronglySorted RA (filter P l).
Proof.
  induction 1 as [|x l Hl IH Hx]; [constructor|].
  rewrite filter_cons. case_decide; [|done].
  constructor; [done|]. rewrite Forall_forall in Hx |- *.
  intros z Hz. apply list_elem_of_filter in Hz as [_ Hz]. by apply Hx.
Qed.

Lemma StronglySorted_bind (f : A -> list B) l :
  StronglySorted RA l ->
  (forall x, x ∈ l -> StronglySorted RB (f x)) ->
  (forall x x' z z', RA x x' -> z ∈ f x -> z' ∈ f x' -> RB z z') ->
  StronglySorted RB (l ≫= f).
Proof.
  intros Hl Hin Hout. induction Hl as [|x l Hl IH Hx]; [constructor|].
  rewrite bind_cons. apply StronglySorted_app.
  split; [|split].
  - intros z z' Hz Hz'. apply list_elem_of_bind in Hz' as (x' & Hz' & Hx').
    rewrite Forall_forall in Hx. eauto.
  - apply Hin. left.
  - apply IH. intros x' Hx'. apply Hin. by right.
Qed.

Lemma StronglySorted_lookup l i j x x' :
  StronglySorted RA l -> (i < j)%nat ->
  l !! i = Some x -> l !! j = Some x' -> RA x x'.
Proof.
  intros Hl. revert i j. induction Hl as [|z l Hl IH Hz]; intros i j Hij Hi Hj.
  - done.
  - destruct j as [|j]; [lia|]. cbn in Hj. destruct i as [|i]; cbn in Hi.
    + injection Hi as ->. rewrite Forall_forall in Hz.
      apply Hz. by eapply list_elem_of_lookup_2.
    + apply (IH i j); [lia|done..].
Qed.

Lemma StronglySorted_NoDup l :
  (forall x, ~ RA x x) -> StronglySorted RA l -> NoDup l.
Proof.
  intros Hirr. induction 1 as [|x l Hl IH Hx]; constructor; [|done].
  intros Hin. rewrite Forall_forall in Hx. by apply (Hirr x), Hx.
Qed.
End sorted.

Lemma seqZ_sorted m n : StronglySorted Z.lt (seqZ m n).
Proof.
  remember (Z.to_nat n) as k eqn:Hk. revert m n Hk.
  induction k as [|k IH]; intros m n Hk.
  - rewrite seqZ_nil by lia. constructor.
  - rewrite seqZ_cons by lia. constructor; [apply IH; lia|].
    apply Forall_forall. intros z Hz. apply elem_of_seqZ in Hz. lia.
Qed.

Lemma row_sorted a x b ys :
  StronglySorted Z.lt ys -> StronglySorted point_lt (row a x b ys).
Proof.
  unfold row. apply StronglySorted_fmap.
  intros y y' Hy. unfold point_lt. cbn. lia.
Qed.

Lemma elem_of_row a x b ys p :
  p ∈ row a x b ys <-> exists y', p = point.mk a x b y' /\ y' ∈ ys.
Proof. unfold row. apply list_elem_of_fmap. Qed.

Lemma elem_of_plane maxp a b xs p :
  p ∈ plane maxp a b xs <->
  exists x' y', p = point.mk a x' b y' /\ x' ∈ xs /\ y' ∈ exps maxp.
Proof.
  unfold plane. rewrite list_elem_of_bind. split.
  - intros (x' & Hp & Hx'). apply elem_of_row in Hp as (y' & -> & Hy').
    by exists x', y'.
  - intros (x' & y' & -> & Hx' & Hy'). exists x'. split; [|done].
    apply elem_of_row. by exists y'.
Qed.

Lemma plane_sorted maxp a b xs :
  StronglySorted Z.lt xs -> StronglySorted point_lt (plane maxp a b xs).
Proof.
  intros Hxs. unfold plane. eapply StronglySorted_bind; [exact Hxs|..].
  - intros x _. apply row_sorted, seqZ_sorted.
  - intros x x' z z' Hx Hz Hz'.
    apply elem_of_row in Hz as (y1 & -> & _).
    apply elem_of_row in Hz' as (y2 & -> & _).
    unfold point_lt. cbn. lia.
Qed.

Lemma slice_sorted maxp a : StronglySorted point_lt (slice maxp a).
Proof.
  unfold slice, slice_from. eapply StronglySorted_bind.
  - unfold coprime_bases. apply StronglySorted_filter, seqZ_sorted.
  - intros b _. apply plane_sorted, seqZ_sorted.
  - intros b b' z z' Hb Hz Hz'.
    apply elem_of_plane in Hz as (x1 & y1 & -> & _).
    apply elem_of_plane in Hz' as (x2 & y2 & -> & _).
    unfold point_lt. cbn. lia.
Qed.

Lemma point_lt_irrefl p : ~ point_lt p p.
Proof. unfold point_lt. lia. Qed.

Lemma slice_head maxp a :
  2 < maxp -> 0 < a -> slice maxp a !! 0%nat = Some (point.mk a 3 1 3).
Proof.
  intros Hmp Ha. unfold slice. rewrite (coprime_bases_cons a 1) by lia.
  rewrite decide_True by (unfold gcd; apply Z.gcd_1_r).
  unfold slice_from. rewrite bind_cons, plane_first by lia.
  by rewrite exps_first by lia.
Qed.

(** ** The residue table after construction *)

(** A counted loop keeps an invariant [Inv i st], read as: the state [st] is
    the one before the turn of index [i]. *)
Lemma for_each_seqZ_inv {S : Type} (body : S -> Z -> option S)
    (Inv : Z -> S -> Prop) lo n st st' :
  0 <= n ->
  Inv lo st ->
  (forall i s s', lo <= i < lo + n -> Inv i s -> body s i = Some s' ->
                  Inv (i + 1) s') ->
  for_each body st (seqZ lo n) = Some st' ->
  Inv (lo + n) st'.
Proof.
  remember (Z.to_nat n) as k eqn:Hk. revert lo n st Hk.
  induction k as [|k IH]; intros lo n st Hk Hn Hinv Hstep Hrun.
  - rewrite seqZ_nil in Hrun by lia. cbn in Hrun. injection Hrun as <-.
    by replace (lo + n) with lo by lia.
  - rewrite seqZ_first in Hrun by lia. cbn in Hrun.
    destruct (body st lo) as [s1|] eqn:Hbody; [|done]. cbn in Hrun.
    replace (lo + n) with ((lo + 1) + (n - 1)) by lia.
    apply (IH (lo + 1) (n - 1) s1); [lia|lia| |  |done].
    + apply (Hstep lo st); [lia|done..].
    + intros i s s' Hi. apply Hstep. lia.
Qed.

Lemma vec_get_Some {A : Type} (v : list A) i x :
  vec_get v i = Some x <-> 0 <= i /\ v !! Z.to_nat i = Some x.
Proof.
  unfold vec_get. case_decide; [by intuition|].
  split; [done|]. by intros [? _].
Qed.

Lemma vec_set_Some {A : Type} (v : list A) i x v' :
  vec_set v i x = Some v' <->
  0 <= i < Z.of_nat (length v) /\ v' = <[Z.to_nat i := x]> v.
Proof.
  unfold vec_set. case_decide.
  - split; [by intros [= <-]|by intros [_ ->]].
  - split; [done|]. by intros [? _].
Qed.

Lemma assert_inv (P : Prop) `{Decision P} u : assert P = Some u -> P.
Proof. unfold assert. by case_decide. Qed.

Section table.
Variables maxp modulus : Z.

Lemma fill_cell_inv c vals0 bits0 z st st' :
  0 <= c -> 3 <= z ->
  inner_inv modulus c vals0 bits0 z st ->
  cz.fill_cell modulus c st z = Some st' ->
  inner_inv modulus c vals0 bits0 (z + 1) st'.
Proof.
  intros Hc Hz (Hcells & Hrows & Hbits) Hrun.
  destruct st as [vals bits]. unfold cz.fill_cell in Hrun. cbn in *.
  destruct (vec_get vals c) as [row|] eqn:Hrow; [|done]. cbn in Hrun.
  destruct (vec_set row z _) as [row'|] eqn:Hrow'; [|done]. cbn in Hrun.
  destruct (vec_set vals c row') as [vals'|] eqn:Hvals'; [|done].
  cbn in Hrun. injection Hrun as <-.
  apply vec_get_Some in Hrow as [_ Hrow].
  apply vec_set_Some in Hrow' as [Hzlen ->].
  apply vec_set_Some in Hvals' as [Hclen ->].
  fold (stored modulus c z). split; [|split]; cbn.
  - intros z' Hz'. exists (<[Z.to_nat z:=stored modulus c z]> row).
    split; [apply list_lookup_insert_eq; lia|].
    destruct (decide (z' = z)) as [->|Hne].
    + apply list_lookup_insert_eq. lia.
    + rewrite list_lookup_insert_ne by lia.
      destruct (Hcells z') as (row1 & Hrow1 & Hz1); [lia|].
      by replace row with row1 by congruence.
  - intros k Hk. rewrite list_lookup_insert_ne by done. by apply Hrows.
  - intros v. rewrite elem_of_union, elem_of_singleton, Hbits.
    split.
    + intros [->|[Hv|(z' & Hz' & ->)]]; [right; exists z; split; [lia|done]
                                        |by left|].
      right. exists z'. split; [lia|done].
    + intros [Hv|(z' & Hz' & ->)]; [by right; left|].
      destruct (decide (z' = z)) as [->|Hne]; [by left|].
      right; right. exists z'. split; [lia|done].
Qed.

Lemma fill_row_inv c st st' :
  1 <= c -> 2 < maxp ->
  outer_inv maxp modulus c st ->
  cz.fill_row maxp modulus st c = Some st' ->
  outer_inv maxp modulus (c + 1) st'.
Proof.
  intros Hc Hmp (Hcells & Hbits) Hrun.
  destruct st as [vals bits]. unfold cz.fill_row in Hrun. cbn in *.
  destruct (vec_get vals c) as [row|] eqn:Hrow; [|done]. cbn in Hrun.
  destruct (vec_set vals c _) as [vals1|] eqn:Hvals1; [|done]. cbn in Hrun.
  apply vec_set_Some in Hvals1 as [Hclen Hvals1].
  apply (for_each_seqZ_inv _ (inner_inv modulus c vals1 bits)) in Hrun;
[|lia|..].
  - destruct Hrun as (Hcells' & Hrows' & Hbits'). split.
    + intros c' z' Hc' Hz'. destruct (decide (c' = c)) as [->|Hne].
      * apply Hcells'. lia.
      * destruct (Hcells c' z') as (row1 & Hrow1 & Hz1); [lia..|].
        exists row1. split; [|done].
        rewrite Hrows', Hvals1 by lia.
        by rewrite list_lookup_insert_ne by lia.
    + intros v. rewrite Hbits', Hbits. split.
      * intros [(c' & z' & Hc' & Hz' & ->)|(z' & Hz' & ->)].
        -- exists c', z'. split; [lia|done].
        -- exists c, z'. split; [lia|]. split; [lia|done].
      * intros (c' & z' & Hc' & Hz' & ->).
        destruct (decide (c' = c)) as [->|Hne].
        -- right. exists z'. split; [lia|done].
        -- left. exists c', z'. split; [lia|done].
  - split; [|split]; cbn; [intros; lia|done|].
    intros v. split; [by left|]. intros [Hv|(z' & Hz' & _)]; [done|lia].
  - intros i s s' Hi. apply fill_cell_inv; lia.
Qed.
End table.

(** What the constructor leaves behind: every cell in range holds its
    residue, and the sieve holds exactly the stored residues. *)
Lemma cz_make_inv maxb maxp modulus t :
  cz.make maxb maxp modulus = Some t ->
  0 < maxb /\ 2 < maxp /\ 0 < modulus /\ cz.mod_ t = modulus
  /\ outer_inv maxp modulus (maxb + 1) (cz.vals_ t, cz.exists_ t).
Proof.
  unfold cz.make. intros Hrun.
  destruct (assert (maxb > 0)) eqn:Hmb; [|done]. apply assert_inv in Hmb.
  destruct (assert (maxp > 2)) eqn:Hmp; [|done]. apply assert_inv in Hmp.
  destruct (assert (modulus > 0)) eqn:Hm; [|done]. apply assert_inv in Hm.
  cbn in Hrun.
  destruct (for_each _ _ _) as [[vals bits]|] eqn:Hloop; [|done].
  cbn in Hrun. injection Hrun as <-. cbn.
  do 3 (split; [lia|]). split; [done|].
  replace (maxb + 1) with (1 + maxb) by lia.
  eapply (for_each_seqZ_inv _ (outer_inv maxp modulus)); [| |  |exact Hloop].
  - lia.
  - split; cbn; [intros; lia|].
    intros v. split; [by intros ?%not_elem_of_empty|].
    intros (c' & _ & ? & _). lia.
  - intros i s s' Hi. apply fill_row_inv; lia.
Qed.

Lemma stored_modpow modulus c z :
  0 < modulus <= UINT_MAX -> stored modulus c z = modpow c z modulus.
Proof.
  intros Hm. unfold stored, to_uint32, modpow. apply Z.mod_small.
  pose proof (Z.mod_pos_bound (c ^ z) modulus). unfold UINT_MAX in Hm. lia.
Qed.

Lemma stored_uint32 modulus c z : 0 <= stored modulus c z < 2 ^ 32.
Proof. unfold stored, to_uint32. apply Z.mod_pos_bound. lia. Qed.

Lemma cz_get_cell t c z v :
  0 < c -> 2 < z -> cell (cz.vals_ t) c z v -> cz.get t c z = Some v.
Proof.
  intros Hc Hz (row & Hrow & Hv). unfold cz.get.
  rewrite !assert_Some by lia. cbn.
  replace (vec_get (cz.vals_ t) c) with (Some row)
    by (symmetry; apply vec_get_Some; split; [lia|done]).
  cbn. apply vec_get_Some. split; [lia|done].
Qed.

Lemma cz_get_stored maxb maxp modulus t c z :
  cz.make maxb maxp modulus = Some t ->
  1 <= c <= maxb -> 3 <= z <= maxp ->
  cz.get t c z = Some (stored modulus c z).
Proof.
  intros Hmk Hc Hz. apply cz_make_inv in Hmk as (_ & _ & _ & _ & Hcells & _).
  apply cz_get_cell; [lia..|]. apply Hcells; lia.
Qed.

Lemma cz_exists_stored maxb maxp modulus t v :
  cz.make maxb maxp modulus = Some t ->
  cz.exists' t v = true <->
  exists c z, 1 <= c <= maxb /\ 3 <= z <= maxp /\ v = stored modulus c z.
Proof.
  intros Hmk. apply cz_make_inv in Hmk as (_ & _ & _ & _ & _ & Hbits).
  unfold cz.exists'. rewrite bool_decide_eq_true. cbn in Hbits.
  rewrite Hbits. split; intros (c & z & Hc & Hz & ->); exists c, z; lia.
Qed.

(** *** The constructor returns *)

Lemma for_each_seqZ_total {S : Type} (body : S -> Z -> option S)
    (Inv : Z -> S -> Prop) lo n st :
  0 <= n ->
  Inv lo st ->
  (forall i s, lo <= i < lo + n -> Inv i s ->
               exists s', body s i = Some s' /\ Inv (i + 1) s') ->
  exists st', for_each body st (seqZ lo n) = Some st' /\ Inv (lo + n) st'.
Proof.
  remember (Z.to_nat n) as k eqn:Hk. revert lo n st Hk.
  induction k as [|k IH]; intros lo n st Hk Hn Hinv Hstep.
  - rewrite seqZ_nil by lia. exists st. split; [done|].
    by replace (lo + n) with lo by lia.
  - rewrite seqZ_first by lia. cbn.
    destruct (Hstep lo st) as (s1 & -> & Hinv1); [lia|done|]. cbn.
    replace (lo + n) with ((lo + 1) + (n - 1)) by lia.
    apply IH; [lia|lia|done|].
    intros i s Hi. apply Hstep. lia.
Qed.

Lemma length_resize_row n row :
  0 <= n -> Z.of_nat (length (cz.resize_row n row)) = n.
Proof.
  intros Hn. unfold cz.resize_row.
  rewrite length_app, length_take, length_replicate. lia.
Qed.

Lemma fill_cell_total maxb maxp modulus c z st :
  1 <= c <= maxb -> 3 <= z <= maxp ->
  row_shape maxb maxp c st ->
  exists st', cz.fill_cell modulus c st z = Some st'
              /\ row_shape maxb maxp c st'.
Proof.
  intros Hc Hz (Hlen & row & Hrow & Hrowlen). destruct st as [vals bits].
  cbn in *. unfold cz.fill_cell.
  replace (vec_get vals c) with (Some row)
    by (symmetry; apply vec_get_Some; split; [lia|done]).
  cbn. unfold vec_set. rewrite decide_True by lia. cbn.
  rewrite decide_True by lia. cbn.
  eexists. split; [done|]. split; cbn.
  - by rewrite length_insert.
  - eexists. split; [apply list_lookup_insert_eq; lia|].
    by rewrite length_insert.
Qed.

Lemma fill_row_total maxb maxp modulus c st :
  1 <= c <= maxb -> 2 < maxp < UINT_MAX ->
  Z.of_nat (length st.1) = maxb + 1 ->
  exists st', cz.fill_row maxp modulus st c = Some st'
              /\ Z.of_nat (length st'.1) = maxb + 1.
Proof.
  intros Hc Hmp Hlen. destruct st as [vals bits]. cbn in *.
  unfold cz.fill_row.
  destruct (lookup_lt_is_Some_2 vals (Z.to_nat c)) as [row Hrow]; [lia|].
  replace (vec_get vals c) with (Some row)
    by (symmetry; apply vec_get_Some; split; [lia|done]).
  cbn. unfold vec_set at 1. rewrite decide_True by lia. cbn.
  set (vals1 := <[Z.to_nat c:=_]> vals).
  destruct (for_each_seqZ_total (cz.fill_cell modulus c)
              (fun _ => row_shape maxb maxp c) 3 (maxp - 2) (vals1, bits))
    as (st' & Hrun & Hshape & _).
  - lia.
  - split; cbn; [by unfold vals1; rewrite length_insert|].
    eexists. split; [unfold vals1; apply list_lookup_insert_eq; lia|].
    rewrite length_resize_row by (unfold to_uint32; apply Z.mod_pos_bound; lia).
    unfold to_uint32, UINT_MAX in *. apply Z.mod_small. lia.
  - intros i s Hi Hs. apply (fill_cell_total maxb maxp); [lia|lia|done].
  - exists st'. split; [exact Hrun|exact Hshape].
Qed.

(** For bounds that leave room for the [+ 1] of the two [resize] calls, the
    constructor runs through and returns a table. *)
Lemma cz_make_total maxb maxp modulus :
  0 < maxb < UINT_MAX -> 2 < maxp < UINT_MAX -> 0 < modulus ->
  is_Some (cz.make maxb maxp modulus).
Proof.
  intros Hmb Hmp Hm. unfold cz.make.
  rewrite !assert_Some by lia. cbn.
  destruct (for_each_seqZ_total (cz.fill_row maxp modulus)
              (fun _ st => Z.of_nat (length st.1) = maxb + 1) 1 maxb
              (replicate (Z.to_nat (to_uint32 (maxb + 1))) [], ∅))
    as ([vals bits] & -> & _).
  - lia.
  - cbn. rewrite length_replicate.
    unfold to_uint32, UINT_MAX in *. rewrite Z.mod_small by lia. lia.
  - intros i s Hi Hs. apply fill_row_total; [lia|lia|done].
  - cbn. eauto.
Qed.

(** ** The search *)

Lemma cz_make_modulus maxb maxp modulus t :
  cz.make maxb maxp modulus = Some t -> cz.modulus t = modulus.
Proof. intros H. unfold cz.modulus. by apply cz_make_inv in H as (_&_&_&?&_). Qed.

(** The value the code hands to [exists] is the exact residue of the sum:
    neither the 64-bit addition nor the conversion to [uint32_t] loses
    anything. *)
Lemma sieve_val_exact maxb maxp modulus t pt :
  cz.make maxb maxp modulus = Some t ->
  modulus <= UINT_MAX ->
  in_bounds maxb maxp pt ->
  exists ax bx,
    cz.get t (point.a pt) (point.x pt) = Some ax
    /\ cz.get t (point.b pt) (point.y pt) = Some bx
    /\ ax = point.a pt ^ point.x pt mod modulus
    /\ bx = point.b pt ^ point.y pt mod modulus
    /\ to_uint64 (to_uint64 ax + to_uint64 bx) = ax + bx
    /\ work.sieve_val t pt = Some ((ax + bx) mod modulus)
    /\ to_uint32 ((ax + bx) mod modulus) = (ax + bx) mod modulus.
Proof.
  intros Hmk Hm (Ha & Hb & Hx & Hy).
  pose proof (cz_make_inv _ _ _ _ Hmk) as (_ & _ & Hm0 & _).
  pose proof (cz_get_stored _ _ _ _ _ _ Hmk Ha Hx) as Hax.
  pose proof (cz_get_stored _ _ _ _ _ _ Hmk Hb Hy) as Hbx.
  rewrite stored_modpow in Hax, Hbx by lia. unfold modpow in Hax, Hbx.
  eexists _, _. split; [exact Hax|]. split; [exact Hbx|].
  split; [done|]. split; [done|].
  pose proof (Z.mod_pos_bound (point.a pt ^ point.x pt) modulus Hm0).
  pose proof (Z.mod_pos_bound (point.b pt ^ point.y pt) modulus Hm0).
  set (ax := point.a pt ^ point.x pt mod modulus) in *.
  set (bx := point.b pt ^ point.y pt mod modulus) in *.
  pose proof (Z.mod_pos_bound (ax + bx) modulus Hm0).
  unfold UINT_MAX in Hm.
  assert (to_uint64 (to_uint64 ax + to_uint64 bx) = ax + bx) as Hsum.
  { unfold to_uint64. rewrite (Z.mod_small ax), (Z.mod_small bx) by lia.
    apply Z.mod_small. lia. }
  split; [done|]. split.
  - unfold work.sieve_val. rewrite Hax, Hbx. cbn.
    rewrite (cz_make_modulus _ _ _ _ Hmk).
    rewrite assert_Some by lia. cbn. by rewrite Hsum.
  - unfold to_uint32. apply Z.mod_small. lia.
Qed.

(** On the points within the bounds, the loop over the tables computes the
    conjunction of the checks. *)
Lemma found_retained maxb maxp czs pt :
  Forall (built maxb maxp) czs ->
  in_bounds maxb maxp pt ->
  work.found czs pt = Some (retained czs pt).
Proof.
  intros Hczs Hpt. induction Hczs as [|t czs (m & Hm & Hmk) _ IH]; [done|].
  destruct (sieve_val_exact _ _ _ _ pt Hmk Hm Hpt)
    as (ax & bx & Hax & Hbx & _ & _ & _ & Hval & Hconv).
  cbn [work.found retained forallb]. rewrite Hval. cbn.
  rewrite Hconv. unfold passes. rewrite Hax, Hbx.
  rewrite (cz_make_modulus _ _ _ _ Hmk).
  destruct (cz.exists' t _); [exact IH|done].
Qed.

Lemma filter_all {A : Type} (P : A -> Prop) `{forall x, Decision (P x)}
    (l : list A) :
  (forall x, P x) -> filter P l = l.
Proof.
  intros HP. induction l as [|x l IH]; [done|].
  rewrite filter_cons, decide_True by done. by rewrite IH.
Qed.

(** The search loop, run next to the protocol of the iterator: it keeps the
    points on which [found] is true. *)
Lemma run_collect w (f : point.t -> bool) fuel :
  forall s l s' done results,
    axby.collect fuel s = Some l ->
    axby.next s = Some (s', done) ->
    (forall pt, pt ∈ l -> work.found (work.czs_ w) pt = Some (f pt)) ->
    work.run fuel w s' done results
    = Some (results ++ filter (fun pt => f pt = true) l).
Proof.
  induction fuel as [|fuel IH]; intros s l s' dn results Hcol Hnext Hf;
    [done|].
  cbn in Hcol. rewrite Hnext in Hcol. cbn in Hcol.
  destruct dn.
  - injection Hcol as <-. cbn. by rewrite app_nil_r.
  - destruct (axby.collect fuel s') as [rest|] eqn:Hrest; [|done].
    cbn in Hcol. injection Hcol as <-.
    cbn [work.run]. rewrite (Hf (axby.p_ s')) by left. cbn.
    destruct fuel as [|fuel']; [done|].
    assert (exists s'' done', axby.next s' = Some (s'', done'))
      as (s'' & dn' & Hnext').
    { cbn in Hrest. destruct (axby.next s') as [[s'' dn']|]; [eauto|done]. }
    rewrite Hnext'. cbn [mbind option_bind].
    rewrite (IH s' rest s'' dn'); [|done|done|].
    + destruct (f (axby.p_ s')); cbn.
      * by rewrite <- app_assoc.
      * done.
    + intros pt Hpt. apply Hf. by right.
Qed.

Lemma run_fuel_mono fuel fuel' w s dn r l :
  work.run fuel w s dn r = Some l -> (fuel <= fuel')%nat ->
  work.run fuel' w s dn r = Some l.
Proof.
  revert fuel' s dn r. induction fuel as [|fuel IH];
    intros fuel' s dn r Hrun Hle; [done|].
  destruct fuel' as [|fuel']; [lia|]. cbn [work.run] in Hrun |- *.
  destruct dn; [done|].
  destruct (work.found _ _) as [ok|]; [|done]. cbn in Hrun |- *.
  destruct (axby.next s) as [[s' dn']|]; [|done]. cbn in Hrun |- *.
  apply IH; [done|lia].
Qed.

(** Whatever [results] holds on entry stays in front of what the loop adds. *)
Lemma run_app fuel w :
  forall s done r1 r2,
    work.run fuel w s done (r1 ++ r2)
    = (fun l => r1 ++ l) <$> work.run fuel w s done r2.
Proof.
  induction fuel as [|fuel IH]; intros s dn r1 r2; [done|].
  cbn [work.run]. destruct dn; [done|].
  destruct (work.found _ _) as [ok|]; [|done]. cbn.
  destruct (axby.next s) as [[s' dn']|]; [|done]. cbn.
  destruct ok; [|apply IH]. rewrite <- app_assoc. apply IH.
Qed.

Lemma do_work_points w a (f : point.t -> bool) pts results :
  axby.points (work.maxb_ w) (work.maxp_ w) a = Some pts ->
  (forall pt, pt ∈ pts -> work.found (work.czs_ w) pt = Some (f pt)) ->
  work.do_work w a results
  = Some (w, results ++ filter (fun pt => f pt = true) pts).
Proof.
  unfold axby.points, work.do_work. intros Hpts Hf.
  destruct (axby.make _ _ a) as [s|]; [|done].
  cbn [mbind option_bind] in *.
  destruct (axby.next s) as [[s' dn]|] eqn:Hnext.
  - cbn [mbind option_bind].
    by rewrite (run_collect w f _ s pts s' dn results Hpts Hnext Hf).
  - unfold axby.steps in Hpts. cbn in Hpts. by rewrite Hnext in Hpts.
Qed.

(** ** Claims on the residue table *)

(** C3. For a table built for [maxb], [maxp] and a [uint32_t] modulus, and
    for every base [1 <= c <= maxb] and exponent [3 <= z <= maxp],
    [get(c, z)] returns [modpow(c, z, modulus)], and [exists] is true of
    that value. *)
Theorem cz_get_is_modpow maxb maxp modulus t c z :
  cz.make maxb maxp modulus = Some t ->
  modulus <= UINT_MAX ->
  1 <= c <= maxb -> 3 <= z <= maxp ->
  exists v, cz.get t c z = Some v
            /\ v = modpow c z modulus
            /\ cz.exists' t v = true.
Proof.
  intros Hmk Hm Hc Hz.
  pose proof (cz_make_inv _ _ _ _ Hmk) as (_ & _ & Hm0 & _).
  exists (stored modulus c z). split; [by eapply cz_get_stored|].
  split; [apply stored_modpow; lia|].
  apply (cz_exists_stored _ _ _ _ _ Hmk). by exists c, z.
Qed.

Lemma cz_get_is_modpow_witness :
  exists t, cz.make 4 4 7 = Some t
            /\ exists v, cz.get t 3 3 = Some v
                         /\ v = modpow 3 3 7
                         /\ cz.exists' t v = true.
Proof.
  eexists. split; [vm_compute; reflexivity|].
  apply (cz_get_is_modpow 4 4 7 _ 3 3);
    [vm_compute; reflexivity | unfold UINT_MAX; lia | lia | lia].
Defined.

(** C4, as amended. For a table built for [maxb], [maxp] and a [uint32_t]
    modulus, [exists(v)] is true exactly when [v] is the residue
    [c^z mod modulus] of some base [1 <= c <= maxb] and exponent
    [3 <= z <= maxp]; the methods of the table return no new table, so this
    holds as long as the table lives. *)
Theorem cz_exists_iff_residue maxb maxp modulus t v :
  cz.make maxb maxp modulus = Some t ->
  modulus <= UINT_MAX ->
  cz.exists' t v = true <->
  exists c z, 1 <= c <= maxb /\ 3 <= z <= maxp /\ v = c ^ z mod modulus.
Proof.
  intros Hmk Hm.
  pose proof (cz_make_inv _ _ _ _ Hmk) as (_ & _ & Hm0 & _).
  rewrite (cz_exists_stored _ _ _ _ _ Hmk).
  split; intros (c & z & Hc & Hz & ->); exists c, z;
    (split; [done|]; split; [done|]);
    rewrite stored_modpow by lia; done.
Qed.

Lemma cz_exists_iff_residue_witness :
  exists t, cz.make 4 4 7 = Some t
            /\ (cz.exists' t 6 = true <->
                exists c z, 1 <= c <= 4 /\ 3 <= z <= 4 /\ 6 = c ^ z mod 7).
Proof.
  eexists. split; [vm_compute; reflexivity|].
  apply (cz_exists_iff_residue 4 4 7 _ 6);
    [vm_compute; reflexivity | unfold UINT_MAX; lia].
Defined.

(** C4 as first stated fails: with modulus 7 the value 8 is congruent to
    [2^3], yet [exists(8)] is false, because only the residues below the
    modulus are marked. *)
Lemma cz_exists_not_congruence :
  exists t, cz.make 4 4 7 = Some t
            /\ 0 <= 8 < 2 ^ 32
            /\ (exists c z, 1 <= c <= 4 /\ 3 <= z <= 4
                            /\ c ^ z mod 7 = 8 mod 7)
            /\ cz.exists' t 8 = false.
Proof.
  eexists. split; [vm_compute; reflexivity|].
  split; [lia|]. split; [|vm_compute; reflexivity].
  exists 2, 3. split; [lia|]. split; [lia|]. reflexivity.
Qed.

(** C6. For a [uint32_t] modulus and a point within the bounds of the table,
    the two residues read by [get] are added without wrap-around in the
    64-bit sum, and the value handed to [exists] is [(a^x + b^y) mod
    modulus], unchanged by the conversion to [uint32_t]. *)
Theorem sieve_sum_exact maxb maxp modulus t pt :
  cz.make maxb maxp modulus = Some t ->
  modulus <= UINT_MAX ->
  in_bounds maxb maxp pt ->
  exists ax bx val,
    cz.get t (point.a pt) (point.x pt) = Some ax
    /\ cz.get t (point.b pt) (point.y pt) = Some bx
    /\ ax < modulus /\ bx < modulus
    /\ to_uint64 (to_uint64 ax + to_uint64 bx) = ax + bx
    /\ work.sieve_val t pt = Some val
    /\ to_uint32 val
       = (point.a pt ^ point.x pt + point.b pt ^ point.y pt) mod modulus.
Proof.
  intros Hmk Hm Hpt.
  pose proof (cz_make_inv _ _ _ _ Hmk) as (_ & _ & Hm0 & _).
  destruct (sieve_val_exact _ _ _ _ pt Hmk Hm Hpt)
    as (ax & bx & Hax & Hbx & -> & -> & Hsum & Hval & Hconv).
  eexists _, _, _. split; [exact Hax|]. split; [exact Hbx|].
  split; [apply Z.mod_pos_bound; lia|].
  split; [apply Z.mod_pos_bound; lia|].
  split; [exact Hsum|]. split; [exact Hval|].
  rewrite Hconv. symmetry. apply Zplus_mod.
Qed.

Lemma sieve_sum_exact_witness :
  exists t, cz.make 2 31 4294967291 = Some t
    /\ exists ax bx val,
      cz.get t 2 31 = Some ax
      /\ cz.get t 2 31 = Some bx
      /\ ax < 4294967291 /\ bx < 4294967291
      /\ to_uint64 (to_uint64 ax + to_uint64 bx) = ax + bx
      /\ work.sieve_val t (point.mk 2 31 2 31) = Some val
      /\ to_uint32 val = (2 ^ 31 + 2 ^ 31) mod 4294967291.
Proof.
  eexists. split; [vm_compute; reflexivity|].
  apply (sieve_sum_exact 2 31 4294967291 _ (point.mk 2 31 2 31));
    [vm_compute; reflexivity | unfold UINT_MAX; lia
    | unfold in_bounds; simpl; lia].
Defined.

(** ** Claims on the search *)

Lemma work_make_loop maxb maxp primes :
  forall acc czs,
    for_each
      (fun czs prime =>
         czp ← cz.make (to_uint32 maxb) (to_uint32 maxp) prime;
         Some (czs ++ [czp]))
      acc primes = Some czs ->
    exists new,
      czs = acc ++ new
      /\ Forall2 (fun prime t =>
                    cz.make (to_uint32 maxb) (to_uint32 maxp) prime = Some t)
                 primes new.
Proof.
  induction primes as [|prime primes IH]; intros acc czs Hrun;
    cbn [for_each] in Hrun.
  - injection Hrun as <-. exists []. by rewrite app_nil_r.
  - destruct (cz.make (to_uint32 maxb) (to_uint32 maxp) prime)
      as [t|] eqn:Hmk; [|done].
    cbn [mbind option_bind] in Hrun.
    apply IH in Hrun as (new & -> & Hnew).
    exists (t :: new). rewrite <- app_assoc. split; [done|].
    by constructor.
Qed.

Lemma work_make_inv maxb maxp primes w :
  work.make maxb maxp primes = Some w ->
  work.maxb_ w = maxb /\ work.maxp_ w = maxp
  /\ Forall2 (fun prime t =>
                cz.make (to_uint32 maxb) (to_uint32 maxp) prime = Some t)
             primes (work.czs_ w).
Proof.
  unfold work.make. intros Hrun.
  destruct (for_each _ [] primes) as [czs|] eqn:Hczs; [|done].
  cbn in Hrun. injection Hrun as <-. cbn.
  apply work_make_loop in Hczs as (new & -> & Hnew). done.
Qed.

Lemma work_make_built maxb maxp primes w :
  work.make maxb maxp primes = Some w ->
  0 <= maxb < 2 ^ 32 -> 0 <= maxp < 2 ^ 32 ->
  Forall (fun prime => prime <= UINT_MAX) primes ->
  Forall (built maxb maxp) (work.czs_ w).
Proof.
  intros Hmk Hmb Hmp Hprimes.
  apply work_make_inv in Hmk as (_ & _ & Hczs).
  unfold to_uint32 in Hczs. rewrite !Z.mod_small in Hczs by lia.
  induction Hczs as [|prime t primes czs Ht _ IH]; [constructor|].
  apply Forall_cons in Hprimes as [Hprime Hprimes].
  constructor; [by exists prime|by apply IH].
Qed.

(** C1, as amended. For an orchestrator built for the [int] bounds [maxb],
    [maxp] and
    [uint32_t] moduli, and for [1 <= a <= maxb] (with [a] and [maxp] below
    [INT_MAX], so that no increment of the iterator overflows),
    [do_work(a, results)] on an empty vector returns the points of the slice
    of [a] on which the check of every table succeeds, in the order of the
    enumeration: the result is the enumerated sequence with the failing
    points filtered out.  Every [get] of those checks is within the table. *)
Theorem do_work_retains_passing_points maxb maxp primes w a :
  work.make maxb maxp primes = Some w ->
  Forall (fun prime => prime <= UINT_MAX) primes ->
  1 <= a <= maxb -> maxb <= INT_MAX -> a < INT_MAX -> 2 < maxp < INT_MAX ->
  exists pts,
    axby.points maxb maxp a = Some pts
    /\ work.do_work w a []
       = Some (w, filter (fun pt => retained (work.czs_ w) pt = true) pts)
    /\ (forall pt t, pt ∈ pts -> t ∈ work.czs_ w ->
          is_Some (cz.get t (point.a pt) (point.x pt))
          /\ is_Some (cz.get t (point.b pt) (point.y pt)))
    /\ (forall pt,
          pt ∈ filter (fun pt => retained (work.czs_ w) pt = true) pts <->
          pt ∈ pts /\ forall t, t ∈ work.czs_ w -> passes t pt = true).
Proof.
  intros Hmk Hprimes Ha Hmb Ha' Hmp.
  pose proof (work_make_inv _ _ _ _ Hmk) as (Hwb & Hwp & _).
  assert (Forall (built maxb maxp) (work.czs_ w)) as Hbuilt.
  { apply (work_make_built _ _ primes); unfold INT_MAX in *; try done; lia. }
  assert (forall pt, pt ∈ slice maxp a -> in_bounds maxb maxp pt) as Hin.
  { intros pt Hpt. apply elem_of_slice in Hpt. unfold in_bounds. lia. }
  exists (slice maxp a). split; [apply points_slice; lia|].
  split; [|split].
  - apply (do_work_points w a (retained (work.czs_ w)) (slice maxp a) []).
    + rewrite Hwb, Hwp. apply points_slice; lia.
    + intros pt Hpt. eapply found_retained; eauto.
  - intros pt t Hpt Ht. rewrite Forall_forall in Hbuilt.
    destruct (Hbuilt t Ht) as (m & Hm & Hmkt).
    destruct (sieve_val_exact _ _ _ _ pt Hmkt Hm (Hin pt Hpt))
      as (ax & bx & -> & -> & _). split; eauto.
  - intros pt. rewrite list_elem_of_filter. unfold retained.
    rewrite forallb_forall. setoid_rewrite <- list_elem_of_In. tauto.
Qed.

Lemma do_work_retains_passing_points_witness :
  exists w,
    work.make 6 5 [7; 11] = Some w
    /\ exists pts,
      axby.points 6 5 6 = Some pts
      /\ work.do_work w 6 []
         = Some (w, filter (fun pt => retained (work.czs_ w) pt = true) pts)
      /\ (forall pt t, pt ∈ pts -> t ∈ work.czs_ w ->
            is_Some (cz.get t (point.a pt) (point.x pt))
            /\ is_Some (cz.get t (point.b pt) (point.y pt)))
      /\ (forall pt,
            pt ∈ filter (fun pt => retained (work.czs_ w) pt = true) pts <->
            pt ∈ pts /\ forall t, t ∈ work.czs_ w -> passes t pt = true).
Proof.
  eexists. split; [vm_compute; reflexivity|].
  apply (do_work_retains_passing_points 6 5 [7; 11] _ 6);
    [vm_compute; reflexivity
    | apply (bool_decide_unpack _); vm_compute; exact I
    | lia | unfold INT_MAX; lia | unfold INT_MAX; lia | unfold INT_MAX; lia].
Defined.

(** With no table every check succeeds, and the search loop is the protocol
    of the iterator, fault for fault. *)
Lemma run_no_tables w fuel :
  work.czs_ w = [] ->
  forall s r,
    (sd ← axby.next s; work.run fuel w sd.1 sd.2 r)
    = (l ← axby.collect fuel s; Some (r ++ l)).
Proof.
  intros Hczs. induction fuel as [|fuel IH]; intros s r.
  - cbn. by destruct (axby.next s).
  - cbn [axby.collect work.run].
    destruct (axby.next s) as [[s' dn]|]; [|done]. cbn.
    destruct dn; cbn; [by rewrite app_nil_r|].
    rewrite Hczs. cbn. specialize (IH s' (r ++ [axby.p_ s'])).
    destruct (axby.next s') as [[s'' dn']|]; cbn in IH |- *.
    + rewrite IH. destruct (axby.collect fuel s'); [|done]. cbn.
      by rewrite <- app_assoc.
    + by destruct (axby.collect fuel s').
Qed.

(** C10. For an orchestrator built with no modulus, and for [a >= 1],
    [do_work(a, results)] on an empty vector returns every point the
    iterator yields for [a], in order. *)
Theorem do_work_no_tables maxb maxp w a :
  work.make maxb maxp [] = Some w ->
  work.do_work w a [] = (pts ← axby.points maxb maxp a; Some (w, pts))
  /\ (0 < maxb -> 2 < maxp < INT_MAX -> 1 <= a < INT_MAX ->
      exists pts,
        axby.points maxb maxp a = Some pts
        /\ work.do_work w a [] = Some (w, pts)).
Proof.
  intros Hmk.
  pose proof (work_make_inv _ _ _ _ Hmk) as (Hwb & Hwp & Hczs).
  apply Forall2_nil_inv_l in Hczs.
  assert (work.do_work w a []
          = (pts ← axby.points maxb maxp a; Some (w, pts))) as Heq.
  { unfold work.do_work, axby.points. rewrite Hwb, Hwp.
    destruct (axby.make maxb maxp a) as [s|]; [|done].
    cbn [mbind option_bind].
    pose proof (run_no_tables w (axby.steps maxp a) Hczs s []) as Hrun.
    destruct (axby.next s) as [[s' dn]|];
      cbn [mbind option_bind fst snd] in *.
    - rewrite Hrun. by destruct (axby.collect _ s).
    - by destruct (axby.collect _ s). }
  split; [exact Heq|]. intros Hmb Hmp Ha.
  exists (slice maxp a). split; [apply points_slice; lia|].
  rewrite Heq, points_slice by lia. done.
Qed.

Lemma do_work_no_tables_witness :
  exists w,
    work.make 2 4 [] = Some w
    /\ exists pts,
      axby.points 2 4 5 = Some pts
      /\ work.do_work w 5 [] = Some (w, pts).
Proof.
  eexists. split; [vm_compute; reflexivity|].
  refine (proj2 (do_work_no_tables 2 4 _ 5 _) _ _ _);
    [vm_compute; reflexivity | lia | unfold INT_MAX; lia
    | unfold INT_MAX; lia].
Defined.

(** C8. When [do_work(a, results)] on an empty vector returns, the
    orchestrator it leaves is the one it was called on, a second call on it
    returns the same list, and a call on a vector that already holds points
    appends that same list; no call of [do_work], for any [a], changes the
    orchestrator. *)
Theorem do_work_repeatable w a w1 res1 :
  work.do_work w a [] = Some (w1, res1) ->
  w1 = w
  /\ work.do_work w1 a [] = Some (w1, res1)
  /\ (forall r, work.do_work w1 a r = Some (w1, r ++ res1))
  /\ (forall a' r w2 res2, work.do_work w a' r = Some (w2, res2) -> w2 = w).
Proof.
  assert (forall a' r w2 res2,
            work.do_work w a' r = Some (w2, res2) -> w2 = w) as Hsame.
  { intros a' r w2 res2. unfold work.do_work. intros Hrun.
    destruct (axby.make _ _ a') as [s|]; [|done].
    cbn [mbind option_bind] in Hrun.
    destruct (axby.next s) as [[s' dn]|]; [|done].
    cbn [mbind option_bind] in Hrun.
    destruct (work.run _ _ _ _ _); [|done]. cbn in Hrun. congruence. }
  intros Hrun. pose proof (Hsame _ _ _ _ Hrun) as ->.
  split; [done|]. split; [done|]. split; [|done].
  intros r. revert Hrun. unfold work.do_work.
  destruct (axby.make _ _ a) as [s|]; [|done]. cbn [mbind option_bind].
  destruct (axby.next s) as [[s' dn]|]; [|done]. cbn [mbind option_bind].
  rewrite <- (app_nil_r r) at 1. rewrite run_app.
  destruct (work.run _ _ _ _ []) as [l|]; [|done]. cbn. congruence.
Qed.

Lemma do_work_repeatable_witness :
  exists w res,
    work.make 6 5 [7; 11] = Some w
    /\ work.do_work w 6 [] = Some (w, res)
    /\ (forall r, work.do_work w 6 r = Some (w, r ++ res))
    /\ (forall a' r w2 res2, work.do_work w a' r = Some (w2, res2) -> w2 = w).
Proof.
  eexists _, _. split; [vm_compute; reflexivity|].
  eapply (fun H => proj2 (do_work_repeatable _ 6 _ _ H)).
  vm_compute. reflexivity.
Defined.

(** ** Claims on the iterator *)

(** C2, as amended. For [maxp > 2] and [a >= 1] (both below [INT_MAX], so
    that no
    increment of the iterator overflows), the points yielded before [done]
    are exactly the [(a, x, b, y)] with [3 <= x, y <= maxp], [1 <= b <= a]
    and [gcd(a, b) = 1]; none is yielded twice; they come ordered by [b],
    then [x], then [y], so that [y] varies fastest; and the first one is
    [(a, 3, 1, 3)]. *)
Theorem axby_enumerates_slice maxb maxp a :
  0 < maxb -> 2 < maxp < INT_MAX -> 1 <= a < INT_MAX ->
  exists pts,
    axby.points maxb maxp a = Some pts
    /\ (forall pt, pt ∈ pts <->
          point.a pt = a
          /\ 3 <= point.x pt <= maxp /\ 3 <= point.y pt <= maxp
          /\ 1 <= point.b pt <= a /\ gcd a (point.b pt) = 1)
    /\ NoDup pts
    /\ (forall i j p q, (i < j)%nat -> pts !! i = Some p -> pts !! j = Some q ->
          point_lt p q)
    /\ pts !! 0%nat = Some (point.mk a 3 1 3)
    /\ pts = slice maxp a.
Proof.
  intros Hmb Hmp Ha. exists (slice maxp a).
  split; [apply points_slice; lia|].
  split; [apply elem_of_slice|].
  split; [apply (StronglySorted_NoDup point_lt), slice_sorted;
          apply point_lt_irrefl|].
  split; [|split; [apply slice_head; lia|done]].
  intros i j p q Hij Hi Hj.
  eapply StronglySorted_lookup;
    [apply (slice_sorted maxp a) | exact Hij | exact Hi | exact Hj].
Qed.

Lemma axby_enumerates_slice_witness :
  exists pts,
    axby.points 10 5 6 = Some pts
    /\ (forall pt, pt ∈ pts <->
          point.a pt = 6
          /\ 3 <= point.x pt <= 5 /\ 3 <= point.y pt <= 5
          /\ 1 <= point.b pt <= 6 /\ gcd 6 (point.b pt) = 1)
    /\ NoDup pts
    /\ (forall i j p q, (i < j)%nat -> pts !! i = Some p -> pts !! j = Some q ->
          point_lt p q)
    /\ pts !! 0%nat = Some (point.mk 6 3 1 3)
    /\ pts = slice 5 6.
Proof.
  apply (axby_enumerates_slice 10 5 6); unfold INT_MAX; lia.
Defined.

(** C7, as amended. With [maxp] and [a] below [INT_MAX]: for coprime
    [b < a], the slice of the larger value [a] holds the
    points with the smaller value as [b], for every pair of exponents, and
    the slice of the smaller value [b] holds no point with the larger value
    [a] as its [b]: the pair of bases is enumerated from one slice only. *)
Theorem pair_enumerated_once maxb maxp a b :
  0 < maxb -> 2 < maxp < INT_MAX ->
  1 <= b -> b < a -> a < INT_MAX -> gcd a b = 1 ->
  exists pts_a pts_b,
    axby.points maxb maxp a = Some pts_a
    /\ axby.points maxb maxp b = Some pts_b
    /\ (forall x y, 3 <= x <= maxp -> 3 <= y <= maxp ->
          point.mk a x b y ∈ pts_a)
    /\ (exists pt, pt ∈ pts_a /\ point.a pt = a /\ point.b pt = b)
    /\ (forall pt, pt ∈ pts_b -> point.a pt = b /\ point.b pt <> a).
Proof.
  intros Hmb Hmp Hb Hab Ha Hg. exists (slice maxp a), (slice maxp b).
  split; [apply points_slice; lia|]. split; [apply points_slice; lia|].
  split; [|split].
  - intros x y Hx Hy. apply elem_of_slice. cbn. lia.
  - exists (point.mk a 3 b 3). split; [|done].
    apply elem_of_slice. cbn. lia.
  - intros pt Hpt. apply elem_of_slice in Hpt. lia.
Qed.

Lemma pair_enumerated_once_witness :
  exists pts_a pts_b,
    axby.points 10 5 7 = Some pts_a
    /\ axby.points 10 5 4 = Some pts_b
    /\ (forall x y, 3 <= x <= 5 -> 3 <= y <= 5 -> point.mk 7 x 4 y ∈ pts_a)
    /\ (exists pt, pt ∈ pts_a /\ point.a pt = 7 /\ point.b pt = 4)
    /\ (forall pt, pt ∈ pts_b -> point.a pt = 4 /\ point.b pt <> 7).
Proof.
  apply (pair_enumerated_once 10 5 7 4);
    [lia | unfold INT_MAX; lia | lia | lia | unfold INT_MAX; lia
    | vm_compute; reflexivity].
Defined.



(** ** The claim on the [extern "C"] boundary *)

Lemma for_each_app {S I : Type} (body : S -> I -> option S) st l1 l2 :
  for_each body st (l1 ++ l2)
  = st' ← for_each body st l1; for_each body st' l2.
Proof.
  revert st. induction l1 as [|i l1 IH]; intros st; [done|].
  cbn. destruct (body st i); [apply IH|done].
Qed.

(** The copy loop writes the results over the front of the array and leaves
    the rest of it as it was. *)
Lemma copy_out_prefix (results pts : list point.t) k :
  (k <= length results)%nat -> (length results <= length pts)%nat ->
  for_each (fun pts i => r ← vec_get results i; vec_set pts i r)
    pts (seqZ 0 (Z.of_nat k))
  = Some (take k results ++ drop k pts).
Proof.
  intros Hk Hlen. induction k as [|k IH]; [by rewrite drop_0|].
  rewrite seqZ_S, for_each_app, IH by lia. cbn.
  replace (0 + Z.of_nat k) with (Z.of_nat k) by lia.
  destruct (lookup_lt_is_Some_2 results k) as [r Hr]; [lia|].
  destruct (lookup_lt_is_Some_2 pts k) as [p Hp]; [lia|].
  replace (vec_get results (Z.of_nat k)) with (Some r)
    by (symmetry; apply vec_get_Some; rewrite Nat2Z.id; split; [lia|done]).
  cbn. unfold vec_set.
  rewrite decide_True
    by (rewrite length_app, length_take, length_drop; lia).
  f_equal. rewrite Nat2Z.id.
  rewrite insert_app_r_alt by (rewrite length_take; lia).
  rewrite length_take.
  replace (k - k `min` length results)%nat with 0%nat by lia.
  rewrite (drop_S pts p k Hp). cbn.
  rewrite (take_S_r results k r Hr). by rewrite <- app_assoc.
Qed.

Lemma copy_out_spec (results pts : list point.t) :
  (length results <= length pts)%nat ->
  copy_out results pts = Some (results ++ drop (length results) pts).
Proof.
  intros Hlen. unfold copy_out. rewrite copy_out_prefix by lia.
  by rewrite firstn_all.
Qed.

(** C5. Let the search for [a] return [res].  A call of [work_do_work] whose
    [len] is below the length of [res] leaves the caller's array as it was,
    and returns that length; a call whose [len] is at least that length, on
    an array that long, returns the same length and leaves [res] in the
    front of the array, the rest of it untouched. *)
Theorem work_do_work_buffer w a w' res pts len :
  work.do_work w a [] = Some (w', res) ->
  (len < Z.of_nat (length res) ->
   work_do_work w a pts len = Some (w', pts, Z.of_nat (length res)))
  /\ (Z.of_nat (length res) <= len -> (length res <= length pts)%nat ->
      work_do_work w a pts len
      = Some (w', res ++ drop (length res) pts, Z.of_nat (length res))).
Proof.
  intros Hrun. unfold work_do_work. rewrite Hrun. cbn [mbind option_bind].
  split.
  - intros Hlen. by rewrite decide_False by lia.
  - intros Hlen Hpts. rewrite decide_True by lia.
    by rewrite copy_out_spec.
Qed.

Lemma work_do_work_buffer_witness :
  exists w res,
    work.make 2 4 [] = Some w
    /\ work.do_work w 2 [] = Some (w, res)
    /\ Z.of_nat (length res) = 4
    /\ work_do_work w 2 [blank; blank] 2
       = Some (w, [blank; blank], Z.of_nat (length res))
    /\ work_do_work w 2 [blank; blank; blank; blank; blank] 4
       = Some (w, res ++ drop (length res) [blank; blank; blank; blank; blank],
               Z.of_nat (length res)).
Proof.
  eexists _, _. split; [vm_compute; reflexivity|].
  split; [vm_compute; reflexivity|]. split; [reflexivity|]. split.
  - refine (proj1 (work_do_work_buffer _ 2 _ _ [blank; blank] 2 _) _);
      [vm_compute; reflexivity | simpl; lia].
  - refine (proj2 (work_do_work_buffer _ 2 _ _
                     [blank; blank; blank; blank; blank] 4 _) _ _);
      [vm_compute; reflexivity | simpl; lia | simpl; lia].
Defined.

(** * Further properties of the code *)

(** ** The shape of a table *)

Lemma fill_cell_shape modulus c lens0 z st st' :
  0 <= c -> 3 <= z ->
  inner_shape c lens0 z st ->
  cz.fill_cell modulus c st z = Some st' ->
  inner_shape c lens0 (z + 1) st'.
Proof.
  intros Hc Hz (Hlens & _) Hrun.
  destruct st as [vals bits]. unfold cz.fill_cell in Hrun. cbn in *.
  destruct (vec_get vals c) as [row|] eqn:Hrow; [|done]. cbn in Hrun.
  destruct (vec_set row z _) as [row'|] eqn:Hrow'; [|done]. cbn in Hrun.
  destruct (vec_set vals c row') as [vals'|] eqn:Hvals'; [|done].
  cbn in Hrun. injection Hrun as <-.
  apply vec_get_Some in Hrow as [_ Hrow].
  apply vec_set_Some in Hrow' as [Hzlen ->].
  apply vec_set_Some in Hvals' as [Hclen ->].
  assert ((length <$> vals) !! Z.to_nat c = Some (length row)) as Hlen
    by (by rewrite list_lookup_fmap, Hrow).
  split; cbn.
  - rewrite list_fmap_insert, length_insert, <- Hlens.
    by apply list_insert_id.
  - intros _. exists (length row). rewrite <- Hlens. split; [done|lia].
Qed.

Lemma fill_row_shape maxb maxp modulus c st st' :
  1 <= c -> 2 < maxp ->
  outer_shape maxb maxp c st ->
  cz.fill_row maxp modulus st c = Some st' ->
  outer_shape maxb maxp (c + 1) st'.
Proof.
  intros Hc Hmp (Hlen & Hrows) Hrun.
  destruct st as [vals bits]. unfold cz.fill_row in Hrun. cbn in *.
  destruct (vec_get vals c) as [row0|] eqn:Hrow0; [|done]. cbn in Hrun.
  destruct (vec_set vals c _) as [vals1|] eqn:Hvals1; [|done]. cbn in Hrun.
  apply vec_set_Some in Hvals1 as [Hclen Hvals1].
  apply (for_each_seqZ_inv _ (inner_shape c (length <$> vals1))) in Hrun;
    [|lia|split; [done|lia]|intros i s s' Hi; apply fill_cell_shape; lia].
  destruct Hrun as (Hlens & n & Hn & Hmaxp); [lia|].
  assert (0 <= to_uint32 (maxp + 1)) as Hnonneg
    by (unfold to_uint32; apply Z.mod_pos_bound; lia).
  assert (forall k, length <$> (st'.1 !! k) = length <$> (vals1 !! k))
    as Hlook by (intros k; by rewrite <- !list_lookup_fmap, Hlens).
  split.
  - apply (f_equal length) in Hlens. rewrite !length_fmap in Hlens.
    rewrite Hlens, Hvals1, length_insert. exact Hlen.
  - intros c' Hc'. destruct (decide (c' = c)) as [->|Hne].
    + specialize (Hlook (Z.to_nat c)). rewrite list_lookup_fmap in Hn.
      rewrite Hvals1, list_lookup_insert_eq in Hlook, Hn by lia.
      cbn in Hlook, Hn. injection Hn as <-.
      destruct (st'.1 !! Z.to_nat c) as [row|]; [|done].
      cbn in Hlook. injection Hlook as Hrow.
      exists row. split; [done|]. rewrite Hrow.
      rewrite length_resize_row by done. split; [done|].
      rewrite length_resize_row in Hmaxp by done. lia.
    + destruct (Hrows c') as (row & Hrow & Hrowlen); [lia|].
      specialize (Hlook (Z.to_nat c')).
      rewrite Hvals1, list_lookup_insert_ne, Hrow in Hlook by lia.
      destruct (st'.1 !! Z.to_nat c') as [row'|]; [|done].
      cbn in Hlook. injection Hlook as Hrow'.
      exists row'. split; [done|]. by rewrite Hrow'.
Qed.

(** A table that was built has [maxb + 1] rows, the rows of the bases
    [1 .. maxb] have [maxp + 1] entries, and neither [+ 1] wrapped. *)
Lemma cz_make_shape maxb maxp modulus t :
  cz.make maxb maxp modulus = Some t ->
  maxb < UINT_MAX /\ maxp < UINT_MAX
  /\ Z.of_nat (length (cz.vals_ t)) = maxb + 1
  /\ (forall c, 1 <= c <= maxb ->
        exists row, cz.vals_ t !! Z.to_nat c = Some row
                    /\ Z.of_nat (length row) = maxp + 1).
Proof.
  intros Hmk. pose proof (cz_make_inv _ _ _ _ Hmk) as (Hmb & Hmp & Hm & _).
  unfold cz.make in Hmk. rewrite !assert_Some in Hmk by lia. cbn in Hmk.
  destruct (for_each _ _ _) as [[vals bits]|] eqn:Hloop; [|done].
  cbn in Hmk. injection Hmk as <-. cbn.
  apply (for_each_seqZ_inv _ (outer_shape maxb maxp)) in Hloop;
    [|lia|split; cbn; [by rewrite length_replicate|intros; lia]
     |intros i s s' Hi; apply fill_row_shape; lia].
  destruct Hloop as (Hlen & Hrows). cbn in *.
  assert (forall v, 0 <= v -> v < to_uint32 (v + 1) ->
                    to_uint32 (v + 1) = v + 1 /\ v < UINT_MAX) as Hwrap.
  { intros v Hv Hlt. unfold to_uint32, UINT_MAX in *.
    pose proof (Z.mod_le (v + 1) (2 ^ 32)).
    pose proof (Z.mod_pos_bound (v + 1) (2 ^ 32)). lia. }
  destruct (Hrows maxb) as (rowb & Hrowb & _); [lia|].
  apply lookup_lt_Some in Hrowb.
  destruct (Hwrap maxb) as [Hb Hb']; [lia|lia|].
  destruct (Hrows 1) as (row1 & _ & Hrow1 & Hrow1'); [lia|].
  destruct (Hwrap maxp) as [Hp Hp']; [lia|lia|].
  split; [done|]. split; [done|]. split; [lia|].
  intros c Hc. destruct (Hrows c) as (row & Hrow & Hrowlen & _); [lia|].
  exists row. split; [done|lia].
Qed.

(** X1. The constructor of the table returns exactly when its three
    asserts hold and neither bound is [UINT_MAX]: there [maxb + 1] or
    [maxp + 1] wraps around to 0, the [resize] leaves an empty vector, and
    the first write of the loop is outside it. *)
Theorem cz_make_defined maxb maxp modulus :
  is_Some (cz.make maxb maxp modulus) <->
  0 < maxb < UINT_MAX /\ 2 < maxp < UINT_MAX /\ 0 < modulus.
Proof.
  split.
  - intros [t Hmk].
    pose proof (cz_make_inv _ _ _ _ Hmk) as (Hmb & Hmp & Hm & _).
    pose proof (cz_make_shape _ _ _ _ Hmk) as (Hmb' & Hmp' & _). lia.
  - intros (Hmb & Hmp & Hm). by apply cz_make_total.
Qed.

Lemma cz_get_in_range maxb maxp modulus t c z v :
  cz.make maxb maxp modulus = Some t ->
  cz.get t c z = Some v -> 1 <= c <= maxb /\ 3 <= z <= maxp.
Proof.
  intros Hmk Hget. unfold cz.get in Hget.
  destruct (assert (c > 0)) eqn:Hc; [|done]. apply assert_inv in Hc.
  destruct (assert (z > 2)) eqn:Hz; [|done]. apply assert_inv in Hz.
  cbn in Hget.
  destruct (vec_get (cz.vals_ t) c) as [row|] eqn:Hrow; [|done].
  cbn in Hget. apply vec_get_Some in Hrow as [_ Hrow].
  apply vec_get_Some in Hget as [_ Hget].
  pose proof (cz_make_shape _ _ _ _ Hmk) as (_ & _ & Hlen & Hrows).
  pose proof (lookup_lt_Some _ _ _ Hrow) as Hc'.
  assert (1 <= c <= maxb) as Hcb by lia. split; [done|].
  destruct (Hrows c Hcb) as (row' & Hrow' & Hrowlen).
  replace row' with row in * by congruence.
  apply lookup_lt_Some in Hget. lia.
Qed.

(** X2. On a table that was built, [get(c, z)] returns a value exactly for
    [1 <= c <= maxb] and [3 <= z <= maxp]: below these the asserts stop
    the call, above them the read is outside [vals_]. *)
Theorem cz_get_defined maxb maxp modulus t c z :
  cz.make maxb maxp modulus = Some t ->
  is_Some (cz.get t c z) <-> 1 <= c <= maxb /\ 3 <= z <= maxp.
Proof.
  intros Hmk. split.
  - intros [v Hget]. by eapply cz_get_in_range.
  - intros [Hc Hz]. rewrite (cz_get_stored _ _ _ _ _ _ Hmk Hc Hz). eauto.
Qed.

Lemma cz_get_defined_witness :
  exists t, cz.make 4 4 7 = Some t
            /\ (is_Some (cz.get t 5 3) <-> 1 <= 5 <= 4 /\ 3 <= 3 <= 4).
Proof.
  eexists. split; [vm_compute; reflexivity|].
  apply (cz_get_defined 4 4 7 _ 5 3). vm_compute. reflexivity.
Defined.

(** X3. The sieve of a table that was built marks only values below the
    modulus (and below [2^32]), and it always marks the residue of 1, the
    power of the base 1. *)
Theorem cz_exists_below_modulus maxb maxp modulus t :
  cz.make maxb maxp modulus = Some t ->
  (forall v, cz.exists' t v = true -> 0 <= v < modulus /\ v < 2 ^ 32)
  /\ cz.exists' t (1 mod modulus) = true.
Proof.
  intros Hmk.
  pose proof (cz_make_inv _ _ _ _ Hmk) as (Hmb & Hmp & Hm & _).
  split.
  - intros v Hv. apply (cz_exists_stored _ _ _ _ _ Hmk) in Hv
      as (c & z & _ & _ & ->).
    unfold stored, to_uint32, modpow.
    pose proof (Z.mod_pos_bound (c ^ z) modulus Hm).
    pose proof (Z.mod_le (c ^ z mod modulus) (2 ^ 32)).
    pose proof (Z.mod_pos_bound (c ^ z mod modulus) (2 ^ 32)). lia.
  - apply (cz_exists_stored _ _ _ _ _ Hmk). exists 1, 3.
    split; [lia|]. split; [lia|].
    unfold stored, to_uint32, modpow. rewrite Z.pow_1_l by lia.
    symmetry. apply Z.mod_small.
    pose proof (Z.mod_pos_bound 1 modulus Hm).
    pose proof (Z.mod_le 1 modulus). lia.
Qed.

Lemma cz_exists_below_modulus_witness :
  exists t, cz.make 4 4 7 = Some t
    /\ (forall v, cz.exists' t v = true -> 0 <= v < 7 /\ v < 2 ^ 32)
    /\ cz.exists' t (1 mod 7) = true.
Proof.
  eexists. split; [vm_compute; reflexivity|].
  apply (cz_exists_below_modulus 4 4 7). vm_compute. reflexivity.
Defined.

(** ** The iterator at its end and at its interface *)

Lemma skip_b_done fuel p p' :
  axby.skip_b fuel p = Some (p', true) -> point.a p' = point.a p + 1.
Proof.
  revert p. induction fuel as [|fuel IH]; intros p Hrun; [done|].
  cbn in Hrun. case_decide.
  - destruct (incr (point.a p)) as [a'|] eqn:Ha; [|done].
    cbn in Hrun. injection Hrun as <-. cbn.
    unfold incr in Ha. case_decide; [|done]. by injection Ha as <-.
  - case_decide; [|done].
    destruct (incr (point.b p)) as [b'|]; [|done]. cbn in Hrun.
    by apply IH in Hrun.
Qed.

(** X4. When [next] reports [done], the point it hands back has the [a] of
    the iterator plus one, so it is no point of the slice, and the iterator
    is used up: the next call of [next] fails its assert.  The same holds
    of [axby_next], which copies that point out. *)
Theorem axby_next_after_done s s' pt :
  axby_next s = Some (s', pt, true) ->
  pt = axby.p_ s'
  /\ point.a pt = axby.a_dim_ s + 1
  /\ axby.next s' = None
  /\ axby_next s' = None.
Proof.
  unfold axby_next. intros Hrun.
  destruct (axby.next s) as [[s1 dn]|] eqn:Hnext; [|done].
  cbn in Hrun. injection Hrun as <- <- ->.
  assert (point.a (axby.p_ s1) = axby.a_dim_ s + 1
          /\ axby.a_dim_ s1 = axby.a_dim_ s) as [Ha Hdim].
  { destruct s as [mb mp p ad]. unfold axby.next in Hnext. cbn in *.
    destruct (assert (point.a p = ad)) eqn:Hassert; [|done].
    apply assert_inv in Hassert. cbn in Hnext.
    destruct (incr (point.y p)) as [y'|]; [|done]. cbn in Hnext.
    case_decide; [|done].
    destruct (incr (point.x p)) as [x'|]; [|done]. cbn in Hnext.
    case_decide; [|done].
    destruct (incr (point.b p)) as [b'|]; [|done]. cbn in Hnext.
    destruct (axby.skip_b _ _) as [[q dn]|] eqn:Hskip; [|done].
    cbn in Hnext. injection Hnext as <- ->.
    apply skip_b_done in Hskip. cbn in *. split; [lia|done]. }
  assert (axby.next s1 = None) as Hnone.
  { unfold axby.next. unfold assert. by rewrite decide_False by lia. }
  split; [done|]. split; [done|]. split; [done|]. by rewrite Hnone.
Qed.

Lemma axby_next_after_done_witness :
  exists s' pt,
    axby_next (axby.mk 1 3 (point.mk 1 3 1 3) 1) = Some (s', pt, true)
    /\ pt = axby.p_ s'
    /\ point.a pt = 1 + 1
    /\ axby.next s' = None
    /\ axby_next s' = None.
Proof.
  eexists _, _. split; [vm_compute; reflexivity|].
  apply (axby_next_after_done (axby.mk 1 3 (point.mk 1 3 1 3) 1)).
  vm_compute. reflexivity.
Defined.

(** X5. A slice holds points with [b = a] only for [a = 1]: for [a >= 2]
    the base [b = a] is skipped like every other base that is not coprime
    to [a], so every point yielded has [b < a]. *)
Theorem axby_diagonal_only_for_one maxb maxp a :
  0 < maxb -> 2 < maxp < INT_MAX -> 1 <= a < INT_MAX ->
  exists pts,
    axby.points maxb maxp a = Some pts
    /\ pts <> []
    /\ forall pt, pt ∈ pts -> (point.b pt = a <-> a = 1).
Proof.
  intros Hmb Hmp Ha. exists (slice maxp a).
  split; [apply points_slice; lia|]. split.
  - intros Hnil.
    pose proof (slice_head maxp a ltac:(lia) ltac:(lia)) as Hhead.
    by rewrite Hnil in Hhead.
  - intros pt Hpt. apply elem_of_slice in Hpt as (_ & _ & _ & Hb & Hg).
    split.
    + intros Heq. rewrite Heq in Hg. unfold gcd in Hg.
      rewrite Z.gcd_diag in Hg. lia.
    + lia.
Qed.

Lemma axby_diagonal_only_for_one_witness :
  exists pts,
    axby.points 10 5 6 = Some pts
    /\ pts <> []
    /\ forall pt, pt ∈ pts -> (point.b pt = 6 <-> 6 = 1).
Proof.
  apply (axby_diagonal_only_for_one 10 5 6); unfold INT_MAX; lia.
Defined.

(** X6. The number of points of a slice is the number of bases up to [a]
    that are coprime to [a], times the square of the number of exponents;
    so it is at most [a * (maxp - 2)^2]. *)
Theorem axby_points_count maxb maxp a :
  0 < maxb -> 2 < maxp < INT_MAX -> 1 <= a < INT_MAX ->
  exists pts,
    axby.points maxb maxp a = Some pts
    /\ Z.of_nat (length pts)
       = Z.of_nat (length (filter (fun b => gcd a b = 1) (seqZ 1 a)))
         * (maxp - 2) * (maxp - 2)
    /\ Z.of_nat (length pts) <= a * (maxp - 2) * (maxp - 2).
Proof.
  intros Hmb Hmp Ha. exists (slice maxp a).
  split; [apply points_slice; lia|].
  assert (Z.of_nat (length (slice maxp a))
          = Z.of_nat (length (filter (fun b => gcd a b = 1) (seqZ 1 a)))
            * (maxp - 2) * (maxp - 2)) as Hcount.
  { unfold slice. rewrite length_slice_from. unfold coprime_bases.
    replace (a + 1 - 1) with a by lia. lia. }
  split; [exact Hcount|]. rewrite Hcount.
  pose proof (length_filter (fun b => gcd a b = 1) (seqZ 1 a)) as Hle.
  rewrite length_seqZ in Hle.
  do 2 (apply Z.mul_le_mono_nonneg_r; [lia|]). lia.
Qed.

Lemma axby_points_count_witness :
  exists pts,
    axby.points 10 5 6 = Some pts
    /\ Z.of_nat (length pts)
       = Z.of_nat (length (filter (fun b => gcd 6 b = 1) (seqZ 1 6)))
         * (5 - 2) * (5 - 2)
    /\ Z.of_nat (length pts) <= 6 * (5 - 2) * (5 - 2).
Proof.
  apply (axby_points_count 10 5 6); unfold INT_MAX; lia.
Defined.

(** X7. [axby_make] takes its bounds as [unsigned int] and hands them to a
    constructor that takes [int]: it returns an iterator exactly for bounds
    up to [INT_MAX] that pass the asserts; an unsigned bound above
    [INT_MAX] arrives negative and fails its assert. *)
Theorem axby_make_defined maxb maxp a :
  0 <= maxb <= UINT_MAX -> 0 <= maxp <= UINT_MAX ->
  is_Some (axby_make maxb maxp a) <->
  0 < maxb <= INT_MAX /\ 2 < maxp <= INT_MAX /\ 0 < a.
Proof.
  intros Hmb Hmp. unfold axby_make, axby.make, to_int. cbn.
  rewrite !Z.mod_small by (unfold UINT_MAX in *; lia).
  unfold assert, INT_MAX, UINT_MAX in *.
  repeat case_decide; cbn; split; intros H'; try lia; try done;
    try (by destruct H' as [? [=]]).
Qed.

Lemma axby_make_defined_witness :
  is_Some (axby_make 4294967295 5 1) <->
  0 < 4294967295 <= INT_MAX /\ 2 < 5 <= INT_MAX /\ 0 < 1.
Proof.
  apply (axby_make_defined 4294967295 5 1); unfold UINT_MAX; lia.
Defined.

(** ** The search in terms of residues *)

Lemma passes_iff maxb maxp modulus t pt :
  cz.make maxb maxp modulus = Some t ->
  modulus <= UINT_MAX ->
  in_bounds maxb maxp pt ->
  passes t pt = true <-> power_residue maxb maxp modulus pt.
Proof.
  intros Hmk Hm Hpt.
  pose proof (cz_make_inv _ _ _ _ Hmk) as (_ & _ & Hm0 & _).
  destruct (sieve_val_exact _ _ _ _ pt Hmk Hm Hpt)
    as (ax & bx & Hax & Hbx & -> & -> & _).
  unfold passes, power_residue. rewrite Hax, Hbx.
  rewrite (cz_make_modulus _ _ _ _ Hmk), <- Zplus_mod.
  rewrite (cz_exists_stored _ _ _ _ _ Hmk).
  split; intros (c & z & Hc & Hz & Heq); exists c, z;
    (split; [done|]; split; [done|]);
    rewrite stored_modpow in * by lia; done.
Qed.

Lemma retained_iff maxb maxp primes czs pt :
  Forall2 (fun prime t => cz.make maxb maxp prime = Some t) primes czs ->
  Forall (fun prime => prime <= UINT_MAX) primes ->
  in_bounds maxb maxp pt ->
  retained czs pt = true <->
  forall m, m ∈ primes -> power_residue maxb maxp m pt.
Proof.
  intros Hczs Hprimes Hpt.
  induction Hczs as [|prime t primes czs Hmk _ IH].
  - split; [intros _ m Hm; by apply elem_of_nil in Hm|done].
  - apply Forall_cons in Hprimes as [Hprime Hprimes].
    cbn. rewrite andb_true_iff, (passes_iff _ _ _ _ _ Hmk Hprime Hpt).
    rewrite (IH Hprimes). split.
    + intros [Hp Hrest] m Hm. apply elem_of_cons in Hm as [->|Hm]; auto.
    + intros Hall. split; [apply Hall; left|].
      intros m Hm. apply Hall. by right.
Qed.

(** The result of the search, and what decides whether a point of the slice
    is in it. *)
Lemma do_work_semantics maxb maxp primes w a r :
  work.make maxb maxp primes = Some w ->
  Forall (fun prime => prime <= UINT_MAX) primes ->
  1 <= a <= maxb -> maxb <= INT_MAX -> a < INT_MAX -> 2 < maxp < INT_MAX ->
  work.do_work w a r
  = Some (w, r ++ filter (fun pt => retained (work.czs_ w) pt = true)
                         (slice maxp a))
  /\ forall pt, pt ∈ slice maxp a ->
       (retained (work.czs_ w) pt = true <->
        forall m, m ∈ primes -> power_residue maxb maxp m pt).
Proof.
  intros Hmk Hprimes Ha Hmb Ha' Hmp.
  pose proof (work_make_inv _ _ _ _ Hmk) as (Hwb & Hwp & Hczs).
  unfold to_uint32, INT_MAX in *. rewrite !Z.mod_small in Hczs by lia.
  assert (forall pt, pt ∈ slice maxp a -> in_bounds maxb maxp pt) as Hin.
  { intros pt Hpt. apply elem_of_slice in Hpt. unfold in_bounds. lia. }
  split.
  - apply (do_work_points w a (retained (work.czs_ w)) (slice maxp a) r).
    + rewrite Hwb, Hwp. apply points_slice; unfold INT_MAX; lia.
    + intros pt Hpt. apply (found_retained maxb maxp); [|by apply Hin].
      apply (work_make_built _ _ primes); try done; lia.
  - intros pt Hpt. apply retained_iff; auto.
Qed.

(** X8. The points [do_work] returns for [a] are exactly the points of the
    slice of [a] for which, modulo every modulus of the orchestrator,
    [a^x + b^y] has the residue of some power [c^z] with [1 <= c <= maxb]
    and [3 <= z <= maxp]. *)
Theorem do_work_residue_filter maxb maxp primes w a :
  work.make maxb maxp primes = Some w ->
  Forall (fun prime => prime <= UINT_MAX) primes ->
  1 <= a <= maxb -> maxb <= INT_MAX -> a < INT_MAX -> 2 < maxp < INT_MAX ->
  exists res,
    work.do_work w a [] = Some (w, res)
    /\ forall pt,
         pt ∈ res <->
         point.a pt = a
         /\ 3 <= point.x pt <= maxp /\ 3 <= point.y pt <= maxp
         /\ 1 <= point.b pt <= a /\ gcd a (point.b pt) = 1
         /\ forall m, m ∈ primes -> power_residue maxb maxp m pt.
Proof.
  intros Hmk Hprimes Ha Hmb Ha' Hmp.
  destruct (do_work_semantics _ _ _ _ a [] Hmk Hprimes Ha Hmb Ha' Hmp)
    as [Hrun Hret].
  eexists. split; [exact Hrun|]. cbn. intros pt. split.
  - intros [Hr Hpt]%list_elem_of_filter.
    pose proof (proj1 (elem_of_slice _ _ _) Hpt) as (? & ? & ? & ? & ?).
    do 5 (split; [done|]). by apply Hret.
  - intros (H1 & H2 & H3 & H4 & H5 & H6).
    assert (pt ∈ slice maxp a) as Hpt by (by apply elem_of_slice).
    apply list_elem_of_filter. split; [by apply Hret|done].
Qed.

Lemma do_work_residue_filter_witness :
  exists w,
    work.make 6 5 [7; 11] = Some w
    /\ exists res,
      work.do_work w 6 [] = Some (w, res)
      /\ forall pt,
           pt ∈ res <->
           point.a pt = 6
           /\ 3 <= point.x pt <= 5 /\ 3 <= point.y pt <= 5
           /\ 1 <= point.b pt <= 6 /\ gcd 6 (point.b pt) = 1
           /\ forall m, m ∈ [7; 11] -> power_residue 6 5 m pt.
Proof.
  eexists. split; [vm_compute; reflexivity|].
  apply (do_work_residue_filter 6 5 [7; 11] _ 6);
    [vm_compute; reflexivity
    | apply (bool_decide_unpack _); vm_compute; exact I
    | lia | unfold INT_MAX; lia | unfold INT_MAX; lia | unfold INT_MAX; lia].
Defined.

Lemma filter_sublist_impl {A : Type} (P Q : A -> Prop)
    `{forall x, Decision (P x)} `{forall x, Decision (Q x)} (l : list A) :
  (forall x, x ∈ l -> P x -> Q x) ->
  filter P l `sublist_of` filter Q l.
Proof.
  induction l as [|x l IH]; intros Himpl; [constructor|].
  assert (filter P l `sublist_of` filter Q l) as Hrec
    by (apply IH; intros z Hz; apply Himpl; by right).
  rewrite !filter_cons.
  destruct (decide (P x)) as [HP|HP].
  - rewrite decide_True by (apply Himpl; [left|done]). by constructor.
  - destruct (decide (Q x)); [by constructor|done].
Qed.

Lemma filter_ext_in {A : Type} (P Q : A -> Prop)
    `{forall x, Decision (P x)} `{forall x, Decision (Q x)} (l : list A) :
  (forall x, x ∈ l -> (P x <-> Q x)) -> filter P l = filter Q l.
Proof.
  induction l as [|x l IH]; intros Hiff; [done|].
  rewrite !filter_cons, IH by (intros z Hz; apply Hiff; by right).
  destruct (decide (P x)) as [HP|HP].
  - by rewrite decide_True by (apply Hiff; [left|done]).
  - rewrite decide_False; [done|]. intros HQ. apply HP, Hiff; [left|done].
Qed.

(** X9. More moduli can only remove points: when every modulus of one
    orchestrator is a modulus of another with the same bounds, the result
    of the second for [a] is a sublist of the result of the first; when
    the two have the same moduli, in any order and with any repetition,
    the results are equal. *)
Theorem do_work_more_moduli maxb maxp primes primes' w w' a :
  work.make maxb maxp primes = Some w ->
  work.make maxb maxp primes' = Some w' ->
  Forall (fun prime => prime <= UINT_MAX) primes ->
  Forall (fun prime => prime <= UINT_MAX) primes' ->
  (forall m, m ∈ primes -> m ∈ primes') ->
  1 <= a <= maxb -> maxb <= INT_MAX -> a < INT_MAX -> 2 < maxp < INT_MAX ->
  exists res res',
    work.do_work w a [] = Some (w, res)
    /\ work.do_work w' a [] = Some (w', res')
    /\ res' `sublist_of` res
    /\ ((forall m, m ∈ primes' -> m ∈ primes) -> res' = res).
Proof.
  intros Hmk Hmk' Hprimes Hprimes' Hsub Ha Hmb Ha' Hmp.
  destruct (do_work_semantics _ _ _ _ a [] Hmk Hprimes Ha Hmb Ha' Hmp)
    as [Hrun Hret].
  destruct (do_work_semantics _ _ _ _ a [] Hmk' Hprimes' Ha Hmb Ha' Hmp)
    as [Hrun' Hret'].
  eexists _, _. split; [exact Hrun|]. split; [exact Hrun'|]. cbn. split.
  - apply filter_sublist_impl. intros pt Hpt Hr.
    apply Hret; [done|]. intros m Hm. apply (Hret' pt Hpt); auto.
  - intros Hsup. apply filter_ext_in. intros pt Hpt.
    rewrite (Hret pt Hpt), (Hret' pt Hpt). split; auto.
Qed.

Lemma do_work_more_moduli_witness :
  exists w w',
    work.make 6 5 [7] = Some w
    /\ work.make 6 5 [11; 7] = Some w'
    /\ exists res res',
      work.do_work w 6 [] = Some (w, res)
      /\ work.do_work w' 6 [] = Some (w', res')
      /\ res' `sublist_of` res
      /\ ((forall m, m ∈ [11; 7] -> m ∈ [7]) -> res' = res).
Proof.
  eexists _, _. split; [vm_compute; reflexivity|].
  split; [vm_compute; reflexivity|].
  apply (do_work_more_moduli 6 5 [7] [11; 7] _ _ 6);
    [vm_compute; reflexivity | vm_compute; reflexivity
    | apply (bool_decide_unpack _); vm_compute; exact I
    | apply (bool_decide_unpack _); vm_compute; exact I
    | intros m Hm; apply (bool_decide_unpack _);
      apply list_elem_of_singleton in Hm; subst m; vm_compute; exact I
    | lia | unfold INT_MAX; lia | unfold INT_MAX; lia | unfold INT_MAX; lia].
Defined.

(** X10. A larger [maxb] can only add points to a slice it already covered:
    the slice is the same, and every residue the smaller tables accept the
    larger tables accept too. *)
Theorem do_work_larger_maxb maxb maxb' maxp primes w w' a :
  work.make maxb maxp primes = Some w ->
  work.make maxb' maxp primes = Some w' ->
  Forall (fun prime => prime <= UINT_MAX) primes ->
  1 <= a <= maxb -> maxb <= maxb' -> maxb' <= INT_MAX -> a < INT_MAX ->
  2 < maxp < INT_MAX ->
  exists res res',
    work.do_work w a [] = Some (w, res)
    /\ work.do_work w' a [] = Some (w', res')
    /\ res `sublist_of` res'.
Proof.
  intros Hmk Hmk' Hprimes Ha Hle Hmb Ha' Hmp.
  destruct (do_work_semantics maxb maxp primes w a [])
    as [Hrun Hret]; [done|done|lia|lia|lia|lia|].
  destruct (do_work_semantics maxb' maxp primes w' a [])
    as [Hrun' Hret']; [done|done|lia|lia|lia|lia|].
  eexists _, _. split; [exact Hrun|]. split; [exact Hrun'|]. cbn.
  apply filter_sublist_impl. intros pt Hpt Hr.
  apply Hret'; [done|]. intros m Hm.
  destruct (proj1 (Hret pt Hpt) Hr m Hm) as (c & z & Hc & Hz & Heq).
  exists c, z. split; [lia|]. split; [done|done].
Qed.

Lemma do_work_larger_maxb_witness :
  exists w w',
    work.make 6 5 [7; 11] = Some w
    /\ work.make 8 5 [7; 11] = Some w'
    /\ exists res res',
      work.do_work w 6 [] = Some (w, res)
      /\ work.do_work w' 6 [] = Some (w', res')
      /\ res `sublist_of` res'.
Proof.
  eexists _, _. split; [vm_compute; reflexivity|].
  split; [vm_compute; reflexivity|].
  apply (do_work_larger_maxb 6 8 5 [7; 11] _ _ 6);
    [vm_compute; reflexivity | vm_compute; reflexivity
    | apply (bool_decide_unpack _); vm_compute; exact I
    | lia | lia | unfold INT_MAX; lia | unfold INT_MAX; lia
    | unfold INT_MAX; lia].
Defined.

(** X11. An array of [a * (maxp - 2)^2] points is always enough for
    [work_do_work]: with a [len] at least that, on an array that long, the
    call writes every result and returns their number. *)
Theorem work_do_work_capacity maxb maxp primes w a pts len :
  work.make maxb maxp primes = Some w ->
  Forall (fun prime => prime <= UINT_MAX) primes ->
  1 <= a <= maxb -> maxb <= INT_MAX -> a < INT_MAX -> 2 < maxp < INT_MAX ->
  a * (maxp - 2) * (maxp - 2) <= len -> len <= Z.of_nat (length pts) ->
  exists res,
    work.do_work w a [] = Some (w, res)
    /\ Z.of_nat (length res) <= a * (maxp - 2) * (maxp - 2)
    /\ work_do_work w a pts len
       = Some (w, res ++ drop (length res) pts, Z.of_nat (length res)).
Proof.
  intros Hmk Hprimes Ha Hmb Ha' Hmp Hlen Hpts.
  destruct (do_work_semantics _ _ _ _ a [] Hmk Hprimes Ha Hmb Ha' Hmp)
    as [Hrun _].
  eexists. split; [exact Hrun|]. cbn.
  set (res := filter _ (slice maxp a)).
  assert (Z.of_nat (length res) <= a * (maxp - 2) * (maxp - 2)) as Hres.
  { pose proof (length_filter
                  (fun pt => retained (work.czs_ w) pt = true)
                  (slice maxp a)) as Hle.
    pose proof (length_slice maxp a ltac:(lia) ltac:(lia)) as Hlt.
    unfold axby.steps in Hlt. subst res.
    assert (0 <= a * (maxp - 2) * (maxp - 2)) by nia. lia. }
  split; [exact Hres|].
  unfold work_do_work. rewrite Hrun. cbn [mbind option_bind app].
  fold res. rewrite decide_True by lia.
  by rewrite copy_out_spec by lia.
Qed.

Lemma work_do_work_capacity_witness :
  exists w,
    work.make 6 5 [7; 11] = Some w
    /\ exists res,
      work.do_work w 6 [] = Some (w, res)
      /\ length res = 9%nat
      /\ Z.of_nat (length res) <= 6 * (5 - 2) * (5 - 2)
      /\ work_do_work w 6 (replicate 54 blank) 54
         = Some (w, res ++ drop (length res) (replicate 54 blank),
                 Z.of_nat (length res)).
Proof.
  eexists. split; [vm_compute; reflexivity|].
  match goal with
  | |- exists res, work.do_work ?w _ _ = _ /\ _ =>
      destruct (work_do_work_capacity 6 5 [7; 11] w 6 (replicate 54 blank) 54)
        as (res & Hrun & Hle & Hcall)
  end;
    [vm_compute; reflexivity
    | apply (bool_decide_unpack _); vm_compute; exact I
    | lia | unfold INT_MAX; lia | unfold INT_MAX; lia | unfold INT_MAX; lia
    | lia | simpl; lia | ].
  exists res. split; [exact Hrun|]. split; [|split; [exact Hle|exact Hcall]].
  pose proof Hrun as Hres. vm_compute in Hres.
  injection Hres as <-. reflexivity.
Defined.

(** ** The orchestrator at its bounds and at its interface *)

Lemma axby_make_inv maxb maxp a s :
  axby.make maxb maxp a = Some s ->
  0 < maxb /\ 2 < maxp /\ 0 < a
  /\ s = axby.mk maxb maxp (point.mk a 3 1 (3 - 1)) a.
Proof.
  unfold axby.make. cbn. intros Hmk.
  destruct (assert (maxb > 0)) eqn:Hmb; [|done]. apply assert_inv in Hmb.
  destruct (assert (maxp > 2)) eqn:Hmp; [|done]. apply assert_inv in Hmp.
  destruct (assert (a > 0)) eqn:Ha; [|done]. apply assert_inv in Ha.
  rewrite !assert_Some in Hmk by done. cbn in Hmk.
  injection Hmk as <-. split; [lia|]. split; [lia|]. split; [lia|done].
Qed.

(** The first call of [next] yields [(a, 3, 1, 3)]. *)
Lemma axby_first_next maxb maxp a :
  2 < maxp ->
  axby.next (axby.mk maxb maxp (point.mk a 3 1 (3 - 1)) a)
  = Some (axby.mk maxb maxp (point.mk a 3 1 3) a, false).
Proof.
  intros Hmp. unfold axby.next. cbn.
  rewrite assert_Some by done.
  rewrite (incr_Some (3 - 1)) by (unfold INT_MAX; lia). unfold_setters.
  rewrite decide_False by lia. done.
Qed.

(** X12. With at least one table, a search for an [a] above [maxb] does not
    return: the check of the first point reads [vals_[a]], which is outside
    the table.  (With no table such a search is fine.) *)
Theorem do_work_beyond_tables maxb maxp primes w a r :
  work.make maxb maxp primes = Some w ->
  primes <> [] -> maxb < a ->
  work.do_work w a r = None.
Proof.
  intros Hmk Hne Ha.
  pose proof (work_make_inv _ _ _ _ Hmk) as (Hwb & Hwp & Hczs).
  remember (work.czs_ w) as czs0 eqn:Hczs0.
  destruct Hczs as [|prime t primes czs Ht Hczs]; [done|].
  unfold work.do_work. rewrite Hwb, Hwp.
  destruct (axby.make maxb maxp a) as [s|] eqn:Hs; [|done].
  apply axby_make_inv in Hs as (Hmb & Hmp & _ & ->).
  cbn [mbind option_bind]. rewrite axby_first_next by done.
  cbn [mbind option_bind]. unfold axby.steps. cbn [work.run axby.p_].
  assert (cz.get t a 3 = None) as Hget.
  { destruct (cz.get t a 3) as [v|] eqn:Hget; [|done].
    apply (cz_get_in_range _ _ _ _ _ _ _ Ht) in Hget as [Hget _].
    unfold to_uint32 in Hget.
    pose proof (Z.mod_le maxb (2 ^ 32)). lia. }
  rewrite <- Hczs0.
  assert (work.found (t :: czs) (point.mk a 3 1 3) = None) as ->; [|done].
  cbn. unfold work.sieve_val. cbn. by rewrite Hget.
Qed.

Lemma do_work_beyond_tables_witness :
  exists w, work.make 2 3 [7] = Some w /\ work.do_work w 3 [] = None.
Proof.
  eexists. split; [vm_compute; reflexivity|].
  apply (do_work_beyond_tables 2 3 [7]);
    [vm_compute; reflexivity | discriminate | lia].
Defined.

Lemma work_make_loop_total maxb maxp primes :
  Forall (fun prime =>
            is_Some (cz.make (to_uint32 maxb) (to_uint32 maxp) prime))
         primes ->
  forall acc,
    is_Some (for_each
               (fun czs prime =>
                  czp ← cz.make (to_uint32 maxb) (to_uint32 maxp) prime;
                  Some (czs ++ [czp]))
               acc primes).
Proof.
  induction 1 as [|prime primes [t Ht] _ IH]; intros acc; cbn [for_each].
  - eauto.
  - rewrite Ht. cbn [mbind option_bind]. apply IH.
Qed.

(** X13. The constructor of the orchestrator returns exactly when the list
    of moduli is empty (then no bound is checked), or every modulus is
    positive and the bounds, converted to [unsigned int], are accepted by
    the constructor of the tables.  What it returns keeps the two bounds
    and owns one table per modulus, in the order of the moduli. *)
Theorem work_make_tables maxb maxp primes :
  (is_Some (work.make maxb maxp primes) <->
   primes = []
   \/ (0 < to_uint32 maxb < UINT_MAX /\ 2 < to_uint32 maxp < UINT_MAX
       /\ Forall (fun prime => 0 < prime) primes))
  /\ forall w, work.make maxb maxp primes = Some w ->
       work.maxb_ w = maxb /\ work.maxp_ w = maxp
       /\ cz.modulus <$> work.czs_ w = primes.
Proof.
  split.
  - split.
    + intros [w Hmk]. apply work_make_inv in Hmk as (_ & _ & Hczs).
      destruct primes as [|prime primes]; [by left|]. right.
      assert (Forall (fun prime =>
                0 < to_uint32 maxb < UINT_MAX
                /\ 2 < to_uint32 maxp < UINT_MAX /\ 0 < prime)
              (prime :: primes)) as Hall.
      { clear -Hczs. induction Hczs as [|p t ps czs Ht _ IH]; constructor;
          [|done].
        pose proof (cz_make_inv _ _ _ _ Ht) as (? & ? & ? & _).
        pose proof (cz_make_shape _ _ _ _ Ht) as (? & ? & _). lia. }
      pose proof (Forall_inv Hall) as (Hmb & Hmp & _).
      split; [done|]. split; [done|].
      eapply Forall_impl; [exact Hall|]. by intros m (_ & _ & ?).
    + intros Hok. unfold work.make.
      destruct (work_make_loop_total maxb maxp primes) with (acc := @nil cz.t)
        as [czs ->]; [|by eexists].
      destruct Hok as [->|(Hmb & Hmp & Hprimes)]; [constructor|].
      eapply Forall_impl; [exact Hprimes|].
      intros m Hm. by apply cz_make_total.
  - intros w Hmk. apply work_make_inv in Hmk as (Hwb & Hwp & Hczs).
    split; [done|]. split; [done|].
    induction Hczs as [|p t ps czs Ht _ IH]; [done|].
    cbn. by rewrite IH, (cz_make_modulus _ _ _ _ Ht).
Qed.

Lemma assert_None (P : Prop) `{Decision P} : ~ P -> assert P = None.
Proof. intros H'. unfold assert. by rewrite decide_False. Qed.

Lemma to_uint32_to_int v : 0 <= v <= UINT_MAX -> to_uint32 (to_int v) = v.
Proof.
  intros Hv. unfold to_uint32, to_int, UINT_MAX, INT_MAX in *.
  rewrite (Z.mod_small v) by lia. case_decide.
  - apply Z.mod_small. lia.
  - replace (v - 2 ^ 32) with (v + (-1) * 2 ^ 32) by lia.
    rewrite Z_mod_plus_full. apply Z.mod_small. lia.
Qed.

(** X14. [work_make] takes its bounds as [unsigned int], the orchestrator
    keeps them as [int], and the tables get them as [unsigned int] again:
    the tables are built for the bounds as given, but when a bound is above
    [INT_MAX] the orchestrator holds it negative, and every search on it
    fails the assert of the iterator. *)
Theorem work_make_narrowing maxb maxp primes w :
  0 <= maxb <= UINT_MAX -> 0 <= maxp <= UINT_MAX ->
  work_make maxb maxp primes = Some w ->
  Forall2 (fun prime t => cz.make maxb maxp prime = Some t)
          primes (work.czs_ w)
  /\ (INT_MAX < maxb \/ INT_MAX < maxp ->
      forall a r, work.do_work w a r = None).
Proof.
  intros Hmb Hmp Hmk. unfold work_make in Hmk.
  apply work_make_inv in Hmk as (Hwb & Hwp & Hczs).
  rewrite !to_uint32_to_int in Hczs by done. split; [done|].
  intros Hbig a r. unfold work.do_work, axby.make. rewrite Hwb, Hwp. cbn.
  assert (to_int maxb < 0 \/ to_int maxp < 0) as Hneg.
  { unfold to_int, UINT_MAX, INT_MAX in *.
    rewrite !Z.mod_small by lia. repeat case_decide; lia. }
  destruct Hneg as [Hneg|Hneg].
  - by rewrite (assert_None (to_int maxb > 0)) by lia.
  - destruct (assert (to_int maxb > 0)); [|done]. cbn.
    by rewrite (assert_None (to_int maxp > 2)) by lia.
Qed.

Lemma work_make_narrowing_witness :
  exists w,
    work_make 4294967290 3 [] = Some w
    /\ Forall2 (fun prime t => cz.make 4294967290 3 prime = Some t)
               [] (work.czs_ w)
    /\ (INT_MAX < 4294967290 \/ INT_MAX < 3 ->
        forall a r, work.do_work w a r = None).
Proof.
  eexists. split; [vm_compute; reflexivity|].
  apply (work_make_narrowing 4294967290 3 []);
    [unfold UINT_MAX; lia | unfold UINT_MAX; lia | vm_compute; reflexivity].
Defined.

(** X15. The check of the tables does not see which of the two powers
    comes first: on [(a, x, b, y)] and on [(b, y, a, x)] the loop over the
    tables gives the same verdict, or faults on both.  So the half of the
    pairs that the iterator leaves out ([b > a]) would be judged as their
    mirror images are. *)
Theorem found_symmetric czs a x b y :
  work.found czs (point.mk a x b y) = work.found czs (point.mk b y a x).
Proof.
  induction czs as [|t czs IH]; [done|].
  cbn [work.found].
  assert (work.sieve_val t (point.mk a x b y)
          = work.sieve_val t (point.mk b y a x)) as ->.
  { unfold work.sieve_val. cbn.
    destruct (cz.get t a x) as [ax|], (cz.get t b y) as [bx|]; cbn;
      try done.
    destruct (assert _); [|done]. cbn. by rewrite (Z.add_comm (to_uint64 ax)). }
  destruct (work.sieve_val t _) as [val|]; [|done]. cbn.
  by rewrite IH.
Qed.

(** ** The iterator at [maxp = INT_MAX] *)

(** With [maxp = INT_MAX] the test [++p_.y > maxp_] never succeeds: a call of
    [next] that returns has only moved [y], and has not reported [done]. *)
Lemma next_at_int_max s s' dn :
  axby.maxp_ s = INT_MAX ->
  axby.next s = Some (s', dn) ->
  dn = false /\ axby.maxp_ s' = INT_MAX
  /\ point.b (axby.p_ s') = point.b (axby.p_ s).
Proof.
  destruct s as [mb mp p ad]. cbn. intros -> Hnext.
  unfold axby.next in Hnext. cbn in Hnext.
  destruct (assert (point.a p = ad)); [|done]. cbn in Hnext.
  destruct (incr (point.y p)) as [y'|] eqn:Hy; [|done].
  unfold incr in Hy. case_decide; [|done]. injection Hy as <-.
  cbn in Hnext. rewrite decide_False in Hnext by lia.
  by injection Hnext as <- <-.
Qed.

Lemma collect_at_int_max fuel s :
  axby.maxp_ s = INT_MAX -> axby.collect fuel s = None.
Proof.
  revert s. induction fuel as [|fuel IH]; intros s Hmp; [done|].
  cbn [axby.collect].
  destruct (axby.next s) as [[s' dn]|] eqn:Hnext; [|done].
  apply next_at_int_max in Hnext as (-> & Hmp' & _); [|done].
  cbn. by rewrite IH.
Qed.

Lemma calls_at_int_max n s s' dn :
  axby.maxp_ s = INT_MAX ->
  calls n s = Some (s', dn) ->
  dn = false /\ axby.maxp_ s' = INT_MAX
  /\ point.b (axby.p_ s') = point.b (axby.p_ s).
Proof.
  intros Hmp. revert s' dn. induction n as [|n IH]; intros s' dn Hcalls.
  - cbn in Hcalls. by injection Hcalls as <- <-.
  - cbn [calls] in Hcalls.
    destruct (calls n s) as [[s1 dn1]|]; [|done]. cbn in Hcalls.
    destruct (IH s1 dn1 eq_refl) as (-> & Hmp1 & Hb1).
    apply next_at_int_max in Hcalls as (? & ? & Hb); [|done].
    split; [done|]. split; [done|]. by rewrite Hb.
Qed.

(** ** The iterator at [a = INT_MAX] *)

(** With [a = INT_MAX] the loop on [b] cannot see [b > a]: it breaks out on
    a coprime base or stops in the overflow of [p_.b++]. *)
Lemma skip_b_at_int_max fuel p p' dn :
  point.a p = INT_MAX -> point.b p <= INT_MAX ->
  axby.skip_b fuel p = Some (p', dn) ->
  dn = false /\ point.a p' = INT_MAX /\ point.b p' <= INT_MAX.
Proof.
  revert p. induction fuel as [|fuel IH]; intros p Ha Hb Hrun; [done|].
  cbn in Hrun. rewrite decide_False in Hrun by lia.
  case_decide.
  - destruct (incr (point.b p)) as [b'|] eqn:Hincr; [|done].
    unfold incr in Hincr. case_decide; [|done]. injection Hincr as <-.
    cbn in Hrun. apply IH in Hrun; [done|done|cbn; lia].
  - by injection Hrun as <- <-.
Qed.

Lemma next_at_a_int_max s s' dn :
  point.a (axby.p_ s) = INT_MAX -> point.b (axby.p_ s) <= INT_MAX ->
  axby.next s = Some (s', dn) ->
  dn = false /\ point.a (axby.p_ s') = INT_MAX
  /\ point.b (axby.p_ s') <= INT_MAX.
Proof.
  destruct s as [mb mp p ad]. cbn. intros Ha Hb Hnext.
  unfold axby.next in Hnext. cbn in Hnext.
  destruct (assert (point.a p = ad)); [|done]. cbn in Hnext.
  destruct (incr (point.y p)) as [y'|]; [|done]. cbn in Hnext.
  case_decide; [|by injection Hnext as <- <-].
  destruct (incr (point.x p)) as [x'|]; [|done]. cbn in Hnext.
  case_decide; [|by injection Hnext as <- <-].
  destruct (incr (point.b p)) as [b'|] eqn:Hincr; [|done].
  unfold incr in Hincr. case_decide; [|done]. injection Hincr as <-.
  cbn in Hnext.
  destruct (axby.skip_b _ _) as [[q dq]|] eqn:Hskip; [|done].
  cbn in Hnext. injection Hnext as <- <-.
  apply skip_b_at_int_max in Hskip; [done|done|cbn; lia].
Qed.

Lemma collect_at_a_int_max fuel s :
  point.a (axby.p_ s) = INT_MAX -> point.b (axby.p_ s) <= INT_MAX ->
  axby.collect fuel s = None.
Proof.
  revert s. induction fuel as [|fuel IH]; intros s Ha Hb; [done|].
  cbn [axby.collect].
  destruct (axby.next s) as [[s' dn]|] eqn:Hnext; [|done].
  apply next_at_a_int_max in Hnext as (-> & Ha' & Hb'); [|done..].
  cbn. by rewrite IH.
Qed.

(** With no table the search is stuck where the iterator is. *)
Lemma do_work_no_tables_stuck maxb maxp a s :
  axby.make maxb maxp a = Some s ->
  (forall fuel, axby.collect fuel s = None) ->
  work.do_work (work.mk maxb maxp []) a [] = None.
Proof.
  intros Hs Hstuck. unfold work.do_work. cbn [work.maxb_ work.maxp_].
  rewrite Hs. cbn [mbind option_bind].
  generalize (axby.steps maxp a). intros fuel.
  pose proof (run_no_tables (work.mk maxb maxp []) fuel eq_refl s [])
    as Hrun.
  rewrite Hstuck in Hrun.
  destruct (axby.next s) as [[s' dn]|]; [|done].
  cbn [mbind option_bind fst snd] in Hrun |- *. by rewrite Hrun.
Qed.

(** C2 as first stated fails at [maxp = INT_MAX]: the iterator built for
    [a = 1] never reports [done], whatever the number of calls; the run ends
    in the overflow of [++p_.y] instead.  It fails at [a = INT_MAX] as well,
    where the run ends in the overflow of [p_.b++]. *)
Lemma axby_never_done_at_int_max :
  (exists s,
     axby.make 1 2147483647 1 = Some s
     /\ 2147483647 > 2 /\ 1 >= 1
     /\ (forall fuel, axby.collect fuel s = None)
     /\ forall n s' dn, calls n s = Some (s', dn) -> dn = false)
  /\ (exists s,
       axby.make 1 3 2147483647 = Some s
       /\ 3 > 2 /\ 2147483647 >= 1
       /\ forall fuel, axby.collect fuel s = None).
Proof.
  split.
  - eexists. split; [vm_compute; reflexivity|].
    split; [lia|]. split; [lia|]. split.
    + intros fuel. by apply collect_at_int_max.
    + intros n s' dn Hcalls. by apply calls_at_int_max in Hcalls as (? & _).
  - eexists. split; [vm_compute; reflexivity|].
    split; [lia|]. split; [lia|].
    intros fuel. apply collect_at_a_int_max; cbn; unfold INT_MAX; lia.
Qed.

(** C7 as first stated fails at [maxp = INT_MAX]: 2 and 3 are coprime, but
    the iterator built for the larger value 3 stays at [b = 1] for ever and
    yields no point with [b = 2].  And for the larger value [INT_MAX] the
    enumeration never comes to its end. *)
Lemma pair_not_enumerated_at_int_max :
  (exists s,
     axby.make 1 2147483647 3 = Some s
     /\ gcd 3 2 = 1
     /\ (forall fuel, axby.collect fuel s = None)
     /\ forall n s' dn,
          calls n s = Some (s', dn) ->
          dn = false /\ point.b (axby.p_ s') <> 2)
  /\ (exists s,
       axby.make 1 3 2147483647 = Some s
       /\ gcd 2147483647 2147483646 = 1
       /\ forall fuel, axby.collect fuel s = None).
Proof.
  split.
  - eexists. split; [vm_compute; reflexivity|].
    split; [reflexivity|]. split.
    + intros fuel. by apply collect_at_int_max.
    + intros n s' dn Hcalls.
      apply calls_at_int_max in Hcalls as (? & _ & Hb); [|done].
      split; [done|]. rewrite Hb. cbn. lia.
  - eexists. split; [vm_compute; reflexivity|].
    split; [vm_compute; reflexivity|].
    intros fuel. apply collect_at_a_int_max; cbn; unfold INT_MAX; lia.
Qed.

(** C1 as first stated fails at [maxp = INT_MAX]: on the orchestrator built
    for [maxb = 1], [maxp = INT_MAX] and no modulus, the search for [a = 1]
    returns no result, while the claim promises every point of the slice.
    The same holds of the search for [a = maxb = INT_MAX]. *)
Lemma do_work_stuck_at_int_max :
  (exists w,
     work.make 1 2147483647 [] = Some w
     /\ 1 <= 1 <= 1
     /\ work.do_work w 1 [] = None)
  /\ (exists w,
       work.make 2147483647 3 [] = Some w
       /\ 1 <= 2147483647 <= 2147483647
       /\ work.do_work w 2147483647 [] = None).
Proof.
  split.
  - eexists. split; [vm_compute; reflexivity|]. split; [lia|].
    apply (do_work_no_tables_stuck 1 2147483647 1 _ eq_refl).
    intros fuel. by apply collect_at_int_max.
  - eexists. split; [vm_compute; reflexivity|]. split; [lia|].
    apply (do_work_no_tables_stuck 2147483647 3 2147483647 _ eq_refl).
    intros fuel. apply collect_at_a_int_max; cbn; unfold INT_MAX; lia.
Qed.
